(** * PixelSentinel: the file-state reconciliation engine

    A shallow embedding of [pixelsentinel.py]: the SQLite store with its two
    tables, the [db_execute] wrapper (connection, rollback, re-raise as
    [ValueError]), the directory walk with its exclusion sets, per-file
    processing, the three classification modes of [detect_files] and the
    album maintenance, followed by the properties of the reconciliation
    pass that the specification states about them.

    Conventions.
    - Paths, checksums and album names are [string]s (POSIX, [os.sep = "/"]).
    - A timestamp is the [REAL] column / the float returned by
      [os.path.getmtime]; the program only ever compares two of them for
      equality, so they are modelled as [Z].
    - A table is a list of rows in rowid order, which is the order in which
      SQLite returns the rows of an unindexed table scan; a table that has
      not been created yet is [None].
    - A Python [dict] is an association list in insertion order whose keys
      are unique ([dict_set] overwrites in place); a Python [set] of
      strings is a [gset string]. *)

From Stdlib Require Import Strings.String Strings.Ascii ZArith.
From stdpp Require Import base decidable option list strings gmap.

Local Open Scope string_scope.
Local Open Scope Z_scope.
Local Open Scope list_scope.

(** ** Characters, strings and [os.path] *)

Module PosixPath.

Definition sep : ascii := "/"%char.

Definition is_sep (c : ascii) : bool := Ascii.eqb c sep.

Fixpoint drop_while (f : ascii → bool) (l : list ascii) : list ascii :=
  match l with
  | [] => []
  | c :: l' => if f c then drop_while f l' else l
  end.

(** [s.rstrip('/')] *)
Definition rstrip_sep (l : list ascii) : list ascii :=
  rev (drop_while is_sep (rev l)).

(** [p[:p.rfind('/') + 1]] *)
Definition head_upto_last_sep (l : list ascii) : list ascii :=
  rev (drop_while (λ c, negb (is_sep c)) (rev l)).

(** [posixpath.dirname]:
<<
    i = p.rfind(sep) + 1
    head = p[:i]
    if head and head != sep*len(head):
        head = head.rstrip(sep)
    return head
>> *)
Definition dirname (p : string) : string :=
  let head := head_upto_last_sep (list_ascii_of_string p) in
  if forallb is_sep head then string_of_list_ascii head
  else string_of_list_ascii (rstrip_sep head).

(** [s.split('/')] on a list of characters; [acc] is the component being
    read, reversed. *)
Fixpoint split_sep_aux (acc : list ascii) (l : list ascii) : list (list ascii) :=
  match l with
  | [] => [rev acc]
  | c :: l' => if is_sep c then rev acc :: split_sep_aux [] l'
               else split_sep_aux (c :: acc) l'
  end.

Definition split_sep (l : list ascii) : list (list ascii) := split_sep_aux [] l.

Definition dot : list ascii := ["."%char].
Definition dotdot : list ascii := ["."%char; "."%char].

(** The loop of [posixpath.normpath] over the components; [new_comps] is
    kept reversed, so its head is [new_comps[-1]]. *)
Fixpoint normpath_comps (initial_slashes : nat) (new_comps : list (list ascii))
    (comps : list (list ascii)) : list (list ascii) :=
  match comps with
  | [] => rev new_comps
  | comp :: rest =>
      if bool_decide (comp = [] ∨ comp = dot) then
        normpath_comps initial_slashes new_comps rest
      else if bool_decide (comp ≠ dotdot
                           ∨ (initial_slashes = 0%nat ∧ new_comps = [])
                           ∨ head new_comps = Some dotdot) then
        normpath_comps initial_slashes (comp :: new_comps) rest
      else
        normpath_comps initial_slashes (tail new_comps) rest
  end.

Fixpoint join_sep (comps : list (list ascii)) : list ascii :=
  match comps with
  | [] => []
  | [c] => c
  | c :: rest => c ++ sep :: join_sep rest
  end.

Definition count_initial_slashes (l : list ascii) : nat :=
  match l with
  | c1 :: c2 :: c3 :: _ =>
      if is_sep c1 then (if is_sep c2 then (if is_sep c3 then 1 else 2) else 1)%nat
      else 0%nat
  | [c1; c2] => if is_sep c1 then (if is_sep c2 then 2 else 1)%nat else 0%nat
  | [c1] => if is_sep c1 then 1%nat else 0%nat
  | [] => 0%nat
  end.

(** [posixpath.normpath] *)
Definition normpath (path : string) : string :=
  let l := list_ascii_of_string path in
  match l with
  | [] => "."
  | _ =>
      let initial_slashes := count_initial_slashes l in
      let comps := normpath_comps initial_slashes [] (split_sep l) in
      let p := repeat sep initial_slashes ++ join_sep comps in
      match p with
      | [] => "."
      | _ => string_of_list_ascii p
      end
  end.

(** [s.replace(os.sep, ' - ')] *)
Fixpoint replace_sep (s : string) : string :=
  match s with
  | EmptyString => EmptyString
  | String c s' =>
      if is_sep c then " - " +:+ replace_sep s' else String c (replace_sep s')
  end.

(** [posixpath.join(a, b)] *)
Definition join (a b : string) : string :=
  match b with
  | String c _ =>
      if is_sep c then b
      else match rev (list_ascii_of_string a) with
           | [] => b
           | last :: _ => if is_sep last then a +:+ b else a +:+ "/" +:+ b
           end
  | EmptyString =>
      match rev (list_ascii_of_string a) with
      | [] => b
      | last :: _ => if is_sep last then a else a +:+ "/"
      end
  end.

End PosixPath.

(** ** Python containers *)

(** [sorted(strings)]: ascending code-point order. *)
Fixpoint insert_sorted (s : string) (l : list string) : list string :=
  match l with
  | [] => [s]
  | x :: l' => if String.leb s x then s :: l else x :: insert_sorted s l'
  end.

Definition sorted (l : list string) : list string := foldr insert_sorted [] l.

(** A [dict] with string keys: [d[k] = v] overwrites the value of an
    existing key where it stands and appends a new key at the end. *)
Fixpoint dict_set {V} (k : string) (v : V) (d : list (string * V)) : list (string * V) :=
  match d with
  | [] => [(k, v)]
  | (k', v') :: d' =>
      if bool_decide (k' = k) then (k, v) :: d' else (k', v') :: dict_set k v d'
  end.

Fixpoint dict_get {V} (k : string) (d : list (string * V)) : option V :=
  match d with
  | [] => None
  | (k', v') :: d' => if bool_decide (k' = k) then Some v' else dict_get k d'
  end.

Definition dict_keys {V} (d : list (string * V)) : list string := d.*1.

(** ** The store *)

Record file_row := FileRow {
  file_id : Z;
  path : string;
  checksum : string;
  timestamp : Z
}.

Record album_row := AlbumRow {
  album_id : Z;
  name : string;
  group_id : Z
}.

(** [files_seq] and [albums_seq] are the [sqlite_sequence] entries of the two
    [AUTOINCREMENT] keys: the largest rowid handed out so far. *)
Record database := Database {
  files : option (list file_row);
  files_seq : Z;
  albums : option (list album_row);
  albums_seq : Z
}.

#[export] Instance file_row_eq_dec : EqDecision file_row.
Proof. solve_decision. Defined.

#[export] Instance album_row_eq_dec : EqDecision album_row.
Proof. solve_decision. Defined.

#[export] Instance database_eq_dec : EqDecision database.
Proof. solve_decision. Defined.

(** One SQL statement run against the store: [None] is an [sqlite3.Error]
    (here: the table does not exist), otherwise the fetched value and the
    store after the statement. *)
Definition statement (A : Type) : Type := database → option (A * database).

Definition query_files {A} (f : list file_row → A) : statement A :=
  λ d, rows ← files d; Some (f rows, d).

Definition update_files (f : list file_row → Z → list file_row * Z) : statement unit :=
  λ d, rows ← files d;
       let '(rows', seq') := f rows (files_seq d) in
       Some (tt, Database (Some rows') seq' (albums d) (albums_seq d)).

Definition query_albums {A} (f : list album_row → A) : statement A :=
  λ d, rows ← albums d; Some (f rows, d).

Definition update_albums (f : list album_row → Z → list album_row * Z) : statement unit :=
  λ d, rows ← albums d;
       let '(rows', seq') := f rows (albums_seq d) in
       Some (tt, Database (files d) (files_seq d) (Some rows') seq').

Module SQL.

(** [CREATE TABLE IF NOT EXISTS files (file_id INTEGER PRIMARY KEY
    AUTOINCREMENT, path TEXT NOT NULL, checksum TEXT NOT NULL, timestamp REAL
    NOT NULL)]: the only key of the table is [file_id]. *)
Definition create_files : statement unit :=
  λ d, Some (tt, match files d with
                 | Some _ => d
                 | None => Database (Some []) (files_seq d) (albums d) (albums_seq d)
                 end).

(** [CREATE TABLE IF NOT EXISTS albums (album_id INTEGER PRIMARY KEY
    AUTOINCREMENT, name TEXT NOT NULL, group_id INTEGER, FOREIGN KEY ...)];
    the connection never enables foreign keys, so the reference is not
    enforced. *)
Definition create_albums : statement unit :=
  λ d, Some (tt, match albums d with
                 | Some _ => d
                 | None => Database (files d) (files_seq d) (Some []) (albums_seq d)
                 end).

(** [SELECT path FROM files] *)
Definition select_paths : statement (list string) := query_files (fmap path).

(** [INSERT INTO albums (name, group_id) VALUES (?, ?)] *)
Definition insert_album (album_name : string) (gid : Z) : statement unit :=
  update_albums (λ rows seq, (rows ++ [AlbumRow (seq + 1) album_name gid], seq + 1)).

(** [SELECT name FROM albums] *)
Definition select_album_names : statement (list string) := query_albums (fmap name).

(** [DELETE FROM albums WHERE name = ?] *)
Definition delete_album (album_name : string) : statement unit :=
  update_albums (λ rows seq, (filter (λ r, name r ≠ album_name) rows, seq)).

(** [SELECT checksum, timestamp FROM files WHERE path = ?] *)
Definition select_file (p : string) : statement (list (string * Z)) :=
  query_files (λ rows, (λ r, (checksum r, timestamp r)) <$> filter (λ r, path r = p) rows).

(** [INSERT OR REPLACE INTO files (path, checksum, timestamp) VALUES (?, ?, ?)]:
    [file_id] is not given, so a fresh one is generated; no uniqueness
    constraint other than the primary key exists, hence no row is ever
    replaced and the statement appends. *)
Definition insert_or_replace_file (p c : string) (t : Z) : statement unit :=
  update_files (λ rows seq, (rows ++ [FileRow (seq + 1) p c t], seq + 1)).

(** [SELECT path, checksum, timestamp FROM files] *)
Definition select_files : statement (list (string * string * Z)) :=
  query_files (fmap (λ r, (path r, checksum r, timestamp r))).

(** [UPDATE files SET path = ? WHERE path = ?] *)
Definition update_path (new_path old_path : string) : statement unit :=
  update_files (λ rows seq,
    ((λ r, if bool_decide (path r = old_path)
           then FileRow (file_id r) new_path (checksum r) (timestamp r) else r) <$> rows,
     seq)).

(** [DELETE FROM files WHERE path = ?] *)
Definition delete_file (p : string) : statement unit :=
  update_files (λ rows seq, (filter (λ r, path r ≠ p) rows, seq)).

End SQL.

(** ** The world the program runs in *)

(** A directory tree as [os.walk] and [os.path.getmtime] see it: the
    entries of a directory in the order [os.scandir] lists them, each file
    with the modification time [getmtime] returns for it. *)
#[warnings="-register-all"]
Inductive node :=
| File (fname : string) (mtime : Z)
| Dir (dname : string) (children : list node).

(** [shared_photos] is the configured watch root, [tree] what lies there
    ([None]: the root does not exist; the name in the root node is not
    used), [read_file] the bytes [open(full_path, 'rb')] delivers ([None]:
    the open fails), [sha256_hexdigest] the digest of [hashlib]. *)
Record environment := Environment {
  shared_photos : string;
  tree : option node;
  read_file : string → option (list Byte.byte);
  sha256_hexdigest : list Byte.byte → string
}.

(** [faults] schedules transient store failures (a locked database, an I/O
    error): each call of [db_execute] consumes one flag, and a [true] makes
    SQLite raise there. [hashed] logs the files opened for fingerprinting. *)
Record world := World {
  db : database;
  faults : list bool;
  hashed : list string
}.

Inductive exn := ValueError | FileNotFoundError.

Inductive result (A : Type) :=
| Ok (a : A)
| Raise (e : exn).
Arguments Ok {A} a.
Arguments Raise {A} e.

Definition M (A : Type) : Type := world → result A * world.

#[export] Instance M_ret : MRet M := λ A a w, (Ok a, w).

#[export] Instance M_bind : MBind M := λ A B f m w,
  match m w with
  | (Ok a, w') => f a w'
  | (Raise e, w') => (Raise e, w')
  end.

Definition raise {A} (e : exn) : M A := λ w, (Raise e, w).

(** [try: body  except ...: handler] *)
Definition try_except {A} (body : M A) (handler : exn → M A) : M A := λ w,
  match body w with
  | (Ok a, w') => (Ok a, w')
  | (Raise e, w') => handler e w'
  end.

(** [for x in l: body(x)] *)
Fixpoint for_each {A} (l : list A) (body : A → M unit) : M unit :=
  match l with
  | [] => mret tt
  | x :: l' => body x ≫= λ _, for_each l' body
  end.

(** [db_execute]: a fresh connection per call; on [sqlite3.Error] the
    transaction is rolled back and [ValueError] raised, otherwise the
    statement is committed. *)
Definition db_execute {A} (stmt : statement A) : M A := λ w,
  let rest := tail (faults w) in
  match faults w with
  | true :: _ => (Raise ValueError, World (db w) rest (hashed w))
  | _ =>
      match stmt (db w) with
      | None => (Raise ValueError, World (db w) rest (hashed w))
      | Some (a, d') => (Ok a, World d' rest (hashed w))
      end
  end.

(** ** The program *)

(** The dictionaries the program passes around. *)
Record scan_entry := ScanEntry {
  se_path : string;
  se_checksum : string;
  se_timestamp : Z
}.

Record prior_record := PriorRecord {
  pr_checksum : string;
  pr_timestamp : Z
}.

Record moved_file := MovedFile {
  old_path : string;
  new_path : string
}.

#[export] Instance scan_entry_eq_dec : EqDecision scan_entry.
Proof. solve_decision. Defined.

#[export] Instance prior_record_eq_dec : EqDecision prior_record.
Proof. solve_decision. Defined.

#[export] Instance moved_file_eq_dec : EqDecision moved_file.
Proof. solve_decision. Defined.

(** How one run of [main] ends. [MissingRoot] and [FirstRun] are the two
    [exit] calls, [Completed] the fall through the end of [main] with the
    three classifications and the argument [sendalerts] was called with
    ([None]: it was not called). An exception that escapes [main] is the
    [Raise] of the monad. *)
Inductive outcome :=
| MissingRoot (message : string)
| FirstRun
| Completed (files_new : list scan_entry) (files_moved : list moved_file)
    (files_deleted : list string) (alerts : option (list (string * Z))).

(** The exit code of the process, where [main] decides it: once
    [sendalerts] has been called, it depends on that collaborator. *)
Definition exit_code (o : outcome) : option Z :=
  match o with
  | MissingRoot _ => Some 1
  | FirstRun => Some 0
  | Completed _ _ _ None => Some 0
  | Completed _ _ _ (Some _) => None
  end.

Definition excluded_dirs : list string := ["#snapshot"; "@eaDir"].
Definition excluded_files : list string := ["Thumbs.db"].

(** The grouping key [check_removed_albums] derives from a path. *)
Definition album_key (p : string) : string :=
  PosixPath.replace_sep (PosixPath.normpath (PosixPath.dirname p)).

(** The album name [initialize_albums] and [get_album_photo_counts] derive
    from a path: no [normpath] there. *)
Definition album_name_of (p : string) : string :=
  PosixPath.replace_sep (PosixPath.dirname p).

Definition file_names (children : list node) : list (string * Z) :=
  flat_map (λ c, match c with File f mt => [(f, mt)] | Dir _ _ => [] end) children.

Definition dir_names (children : list node) : list string :=
  flat_map (λ c, match c with File _ _ => [] | Dir d _ => [d] end) children.

(** [os.walk(top)] consumed by the loop of [get_file_list], which prunes
    [dirs] in place before the generator descends: the triples
    [(root, dirs, files)] in the order they are yielded, [root] being the
    directory names below the watch root and [files] carrying the
    modification time [os.path.getmtime] reports for each name. *)
Fixpoint os_walk (root : list string) (n : node)
    : list (list string * list string * list (string * Z)) :=
  match n with
  | File _ _ => []
  | Dir _ children =>
      let dirs := filter (λ d, d ∉ excluded_dirs) (dir_names children) in
      (root, dirs, file_names children)
      :: flat_map (λ c, match c with
                        | File _ _ => []
                        | Dir d _ => if bool_decide (d ∈ dirs)
                                     then os_walk (root ++ [d]) c else []
                        end) children
  end.

(** The files the loop keeps, by position: directory names below the root,
    file name, modification time. *)
Definition walk_files (n : node) : list (list string * string * Z) :=
  flat_map (λ '(root, _, files),
              (λ '(f, mt), (root, f, mt)) <$> filter (λ '(f, _), f ∉ excluded_files) files)
           (os_walk [] n).

Section Program.

Variable env : environment.

(** [root] as [os.walk] names it: the watch root joined with each
    directory name in turn. *)
Definition root_path (root : list string) : string :=
  foldl PosixPath.join (shared_photos env) root.

(** [os.path.relpath(full_path, shared_photos)] of a file found by the walk:
    its position below the root, joined by the separator. *)
Definition relative_path_of (root : list string) (file : string) : string :=
  String.concat "/" (root ++ [file]).

Definition file_task (w : list string * string * Z) : string * string * Z :=
  let '(root, file, mt) := w in
  (PosixPath.join (root_path root) file, relative_path_of root file, mt).

Definition file_tasks (n : node) : list (string * string * Z) :=
  file_task <$> walk_files n.

Definition initialize_database : M unit :=
  try_except (db_execute SQL.create_files)
    (λ e, match e with ValueError => mret tt | _ => raise e end).

Definition initialize_albums : M unit :=
  try_except
    (db_execute SQL.create_albums ≫= λ _,
     file_list ← db_execute SQL.select_paths;
     let albums : gset string := list_to_set (PosixPath.dirname <$> file_list) in
     let sorted_albums := sorted (elements albums) in
     let formatted_albums := PosixPath.replace_sep <$> sorted_albums in
     for_each formatted_albums (λ album_name, db_execute (SQL.insert_album album_name 1)))
    (λ _, mret tt).

Definition check_removed_albums (file_entries : list scan_entry) : M unit :=
  try_except
    (db_albums ← db_execute SQL.select_album_names;
     let existing_albums : gset string := list_to_set db_albums in
     let current_albums : gset string :=
       list_to_set ((λ entry, album_key (se_path entry)) <$> file_entries) in
     let albums_to_remove := existing_albums ∖ current_albums in
     for_each (elements albums_to_remove)
       (λ album_name, db_execute (SQL.delete_album album_name)))
    (λ _, mret tt).

Definition calculate_checksum (file_path : string) : M string := λ w,
  let w' := World (db w) (faults w) (hashed w ++ [file_path]) in
  match read_file env file_path with
  | Some data => (Ok (sha256_hexdigest env data), w')
  | None => (Raise FileNotFoundError, w')
  end.

Definition hash_and_store (full_path relative_path : string) (modified_time : Z)
    : M string :=
  checksum ← calculate_checksum full_path;
  db_execute (SQL.insert_or_replace_file relative_path checksum modified_time) ≫= λ _,
  mret checksum.

(** All three [except] clauses print and fall off the end: [None]. *)
Definition process_file (full_path relative_path : string) (modified_time : Z)
    : M (option scan_entry) :=
  try_except
    (result ← db_execute (SQL.select_file relative_path);
     checksum ← match result with
                | [] => hash_and_store full_path relative_path modified_time
                | (stored_checksum, stored_time) :: _ =>
                    if bool_decide (stored_time ≠ modified_time)
                    then hash_and_store full_path relative_path modified_time
                    else mret stored_checksum
                end;
     mret (Some (ScanEntry relative_path checksum modified_time)))
    (λ _, mret None).

(** The second loop of [get_file_list]. *)
Fixpoint process_tasks (tasks : list (string * string * Z)) : M (list scan_entry) :=
  match tasks with
  | [] => mret []
  | (full_path, relative_path, modified_time) :: rest =>
      result ← process_file full_path relative_path modified_time;
      results ← process_tasks rest;
      mret (match result with Some r => r :: results | None => results end)
  end.

Definition get_file_list (n : node) : M (list scan_entry) :=
  process_tasks (file_tasks n).

Definition load_prior_state : M (list (string * prior_record)) :=
  rows ← db_execute SQL.select_files;
  mret (foldl (λ d '(p, c, t), dict_set p (PriorRecord c t) d) [] rows).

(** [detect_files('new', ...)] *)
Definition detect_files_new (current_state : list scan_entry)
    (prior_state : list (string * prior_record)) : list scan_entry :=
  filter (λ current_file,
            se_path current_file ∉ dict_keys prior_state
            ∨ pr_checksum <$> dict_get (se_path current_file) prior_state
              ≠ Some (se_checksum current_file)) current_state.

Definition prior_checksums (prior_state : list (string * prior_record))
    : list (string * string) :=
  foldl (λ d '(k, v), dict_set (pr_checksum v) k d) [] prior_state.

Definition moved_files (current_state : list scan_entry)
    (prior_state : list (string * prior_record)) : list moved_file :=
  let index := prior_checksums prior_state in
  flat_map (λ current_file,
              match dict_get (se_checksum current_file) index with
              | Some old =>
                  if bool_decide (old ≠ se_path current_file)
                  then [MovedFile old (se_path current_file)] else []
              | None => []
              end) current_state.

(** [detect_files('move', ...)] *)
Definition detect_files_move (current_state : list scan_entry)
    (prior_state : list (string * prior_record)) : M (list moved_file) :=
  let moved := moved_files current_state prior_state in
  for_each moved (λ file_entry,
    db_execute (SQL.update_path (new_path file_entry) (old_path file_entry))) ≫= λ _,
  mret moved.

Definition deleted_files (current_state : list scan_entry)
    (prior_state : list (string * prior_record)) : list string :=
  filter (λ p, p ∉ se_path <$> current_state) (dict_keys prior_state).

(** [detect_files('delete', ...)] *)
Definition detect_files_delete (current_state : list scan_entry)
    (prior_state : list (string * prior_record)) : M (list string) :=
  let deleted := deleted_files current_state prior_state in
  for_each deleted (λ p, db_execute (SQL.delete_file p)) ≫= λ _,
  mret deleted.

Definition get_album_photo_counts (file_entries : list scan_entry) : list (string * Z) :=
  foldl (λ counts current_file,
           let album_name := album_name_of (se_path current_file) in
           dict_set album_name (default 0 (dict_get album_name counts) + 1) counts)
        [] file_entries.

(** [main]. [install_requirements], the launch of the administration tool
    after the first import, the timer and the body of [sendalerts] belong to
    the collaborators outside the reconciliation core and are not part of
    the model; [alerts] records the call of [sendalerts] and its argument. *)
Definition main : M outcome :=
  match tree env with
  | None =>
      mret (MissingRoot ("Directory '" +:+ shared_photos env +:+ "' does not exist. Exiting."))
  | Some n =>
      initialize_database ≫= λ _,
      prior_state ← load_prior_state;
      match prior_state with
      | [] =>
          get_file_list n ≫= λ _,
          initialize_albums ≫= λ _,
          mret FirstRun
      | _ =>
          current_state ← get_file_list n;
          check_removed_albums current_state ≫= λ _,
          let files_new := detect_files_new current_state prior_state in
          files_moved ← detect_files_move current_state prior_state;
          files_deleted ← detect_files_delete current_state prior_state;
          let alerts := match files_new with
                        | [] => None
                        | _ => Some (get_album_photo_counts files_new)
                        end in
          mret (Completed files_new files_moved files_deleted alerts)
      end
  end.

End Program.

(** ** The pass read as functions on the two tables

    What the monadic code above computes when no store operation fails;
    the lemmas of the next part prove that it does. *)

Section Tables.

Variable env : environment.

(** The row [process_file] consults for a path: [result[0]]. *)
Definition stored (p : string) (rows : list file_row) : option file_row :=
  head (filter (λ r, path r = p) rows).

(** [process_file] on the files table: the returned entry, the table and
    its sequence afterwards, and the files opened for hashing. *)
Definition scan_one (rows : list file_row) (seq : Z) (task : string * string * Z)
    : option scan_entry * list file_row * Z * list string :=
  let '(full_path, relative_path, modified_time) := task in
  let hashing :=
    match read_file env full_path with
    | Some data =>
        let c := sha256_hexdigest env data in
        (Some (ScanEntry relative_path c modified_time),
         rows ++ [FileRow (seq + 1) relative_path c modified_time], seq + 1, [full_path])
    | None => (None, rows, seq, [full_path])
    end in
  match stored relative_path rows with
  | None => hashing
  | Some r =>
      if bool_decide (timestamp r ≠ modified_time) then hashing
      else (Some (ScanEntry relative_path (checksum r) modified_time), rows, seq, [])
  end.

Fixpoint scan (tasks : list (string * string * Z)) (rows : list file_row) (seq : Z)
    : list scan_entry * list file_row * Z * list string :=
  match tasks with
  | [] => ([], rows, seq, [])
  | task :: rest =>
      let '(result, rows1, seq1, h1) := scan_one rows seq task in
      let '(results, rows2, seq2, h2) := scan rest rows1 seq1 in
      (match result with Some r => r :: results | None => results end,
       rows2, seq2, h1 ++ h2)
  end.

End Tables.

(** The dictionary [load_prior_state] builds from the rows. *)
Definition prior_of (rows : list file_row) : list (string * prior_record) :=
  foldl (λ d '(p, c, t), dict_set p (PriorRecord c t) d) []
        ((λ r, (path r, checksum r, timestamp r)) <$> rows).

Definition rename_rows (new old : string) (rows : list file_row) : list file_row :=
  (λ r, if bool_decide (path r = old)
        then FileRow (file_id r) new (checksum r) (timestamp r) else r) <$> rows.

(** The [UPDATE] loop of the move mode. *)
Definition apply_moves (moved : list moved_file) (rows : list file_row) : list file_row :=
  foldl (λ rows m, rename_rows (new_path m) (old_path m) rows) rows moved.

(** The [DELETE] loop of the delete mode. *)
Definition apply_deletes (deleted : list string) (rows : list file_row) : list file_row :=
  foldl (λ rows p, filter (λ r, path r ≠ p) rows) rows deleted.

(** The [DELETE] loop of [check_removed_albums]. *)
Definition remove_albums (names : list string) (rows : list album_row) : list album_row :=
  foldl (λ rows n, filter (λ r, name r ≠ n) rows) rows names.

(** The [INSERT] loop of [initialize_albums]. *)
Definition add_albums (names : list string) (rows : list album_row) (seq : Z)
    : list album_row * Z :=
  foldl (λ '(rows, seq) n, (rows ++ [AlbumRow (seq + 1) n 1], seq + 1)) (rows, seq) names.

(** The album names the first import derives from the recorded paths. *)
Definition initial_album_names (paths : list string) : list string :=
  PosixPath.replace_sep
    <$> sorted (elements (list_to_set (PosixPath.dirname <$> paths) : gset string)).

(** The grouping keys of a scan. *)
Definition current_keys (entries : list scan_entry) : list string :=
  (λ entry, album_key (se_path entry)) <$> entries.

(** The relative paths the walk lists. *)
Definition task_paths (tasks : list (string * string * Z)) : list string :=
  (λ task, task.1.2) <$> tasks.

(** What a first import writes for a list of files: path, digest and
    modification time of each file that can be read. *)
Definition recorded (env : environment) (tasks : list (string * string * Z))
    : list (string * string * Z) :=
  omap (λ '(full, rel, mt),
          (λ data, (rel, sha256_hexdigest env data, mt)) <$> read_file env full) tasks.

(** At most one record per relative path. *)
Definition unique_paths (rows : list file_row) : Prop := NoDup (path <$> rows).

(** A files table that records a scan exactly: one row per listed file and
    no other, each with the listed modification time, and no fingerprint
    twice. *)
Definition in_sync (tasks : list (string * string * Z)) (rows : list file_row) : Prop :=
  unique_paths rows
  ∧ NoDup (checksum <$> rows)
  ∧ (∀ full rel mt, (full, rel, mt) ∈ tasks →
       ∃ r, r ∈ rows ∧ path r = rel ∧ timestamp r = mt)
  ∧ (∀ r, r ∈ rows → ∃ full mt, (full, path r, mt) ∈ tasks).

(** A store operation fails: SQLite raises, by schedule or by itself. *)
Definition fails {A} (stmt : statement A) (w : world) : Prop :=
  head (faults w) = Some true ∨ stmt (db w) = None.

(** The world after a failed [db_execute]: nothing but the schedule moved. *)
Definition rolled_back (w : world) : world :=
  World (db w) (tail (faults w)) (hashed w).

(** The directory a chain of names leads to from the root, by its entries;
    and where a file lies in a tree: the directory names from the root down,
    its name and its modification time. *)
Inductive reaches : node → list string → list node → Prop :=
| reaches_here name children : reaches (Dir name children) [] children
| reaches_below name children d sub dirs entries :
    Dir d sub ∈ children → reaches (Dir d sub) dirs entries →
    reaches (Dir name children) (d :: dirs) entries.

Definition located (n : node) (dirs : list string) (f : string) (mt : Z) : Prop :=
  ∃ entries, reaches n dirs entries ∧ File f mt ∈ entries.

(** The albums table after [check_removed_albums]. *)
Definition pruned_albums (cur : list scan_entry) (al : option (list album_row))
    : option (list album_row) :=
  (λ rows, remove_albums
     (elements ((list_to_set (name <$> rows) : gset string) ∖ list_to_set (current_keys cur)))
     rows) <$> al.

(** What the album invariant of the specification compares: the names in
    the albums table and the grouping keys of the recorded paths. *)
Definition album_names (d : database) : list string := name <$> default [] (albums d).

Definition derived_keys (d : database) : list string :=
  (λ r, album_key (path r)) <$> default [] (files d).

(** ** Fingerprinting in chunks

    The loop of [calculate_checksum]:
<<
    for chunk in iter(lambda: f.read(8192), b""):
        hash_sha256.update(chunk)
>>
    [f.read(size)] hands out the next [size] bytes of a regular file, fewer
    at its end and none after it. The hash object is modelled by the bytes
    fed to it so far: by the contract of [hashlib], a sequence of [update]
    calls hashes the concatenation of its arguments. *)

Module Hashing.

Definition chunk_size : nat := Z.to_nat 8192.

(** [f.read(size)]: the chunk and what is left of the file. *)
Definition read (size : nat) (remaining : list Byte.byte)
    : list Byte.byte * list Byte.byte :=
  (take size remaining, drop size remaining).

(** The loop, run for at most [fuel] reads: the bytes fed to the hash
    object when the sentinel [b""] is read, [None] when the reads are used
    up before. *)
Fixpoint update_loop (fuel size : nat) (remaining fed : list Byte.byte)
    : option (list Byte.byte) :=
  match fuel with
  | O => None
  | S fuel' =>
      let '(chunk, rest) := read size remaining in
      match chunk with
      | [] => Some fed
      | _ => update_loop fuel' size rest (fed ++ chunk)
      end
  end.

(** [hash_sha256.hexdigest()] after the loop over a file with bytes [data]. *)
Definition streamed_checksum (env : environment) (fuel : nat) (data : list Byte.byte)
    : option string :=
  sha256_hexdigest env <$> update_loop fuel chunk_size data [].

End Hashing.

(** ** Notification

    [get_album_groups], [get_member_info] and the part of [sendalerts] that
    decides who is written to. The groups and members tables belong to the
    administration tool ([groups (group_id, name UNIQUE)],
    [members (member_id, name, email, group_id)]). A Python [None] is
    [None]; in [sendalerts] it is what a [for] loop raises [TypeError] on.
    The SMTP dialogue, the text of the message and the pause after each
    delivery are not modelled: [Message] stands for one pass through the
    body of the innermost loop. *)

Module Alerts.

Record group_row := GroupRow {
  g_id : Z;
  g_name : string
}.

Record member_row := MemberRow {
  m_id : Z;
  m_name : string;
  m_email : string;
  m_group : Z
}.

(** The two tables, [None] where the table does not exist. *)
Record subscribers := Subscribers {
  groups : option (list group_row);
  members : option (list member_row)
}.

Record message := Message {
  to_name : string;
  to_email : string;
  about_album : string;
  photo_count : Z
}.

(** [SELECT groups.name FROM albums JOIN groups ON albums.group_id =
    groups.group_id WHERE albums.name = ?]; [None] is the [sqlite3.Error] of
    a missing table. *)
Definition select_group_names (al : option (list album_row)) (subs : subscribers)
    (album_name : string) : option (list string) :=
  arows ← al; grows ← groups subs;
  Some (flat_map (λ a,
          if bool_decide (name a = album_name)
          then flat_map (λ g, if bool_decide (group_id a = g_id g) then [g_name g] else [])
                        grows
          else []) arows).

(** [SELECT members.name, members.email FROM albums JOIN groups ... JOIN
    members ON groups.group_id = members.group_id WHERE albums.name = ? AND
    groups.name = ?] *)
Definition select_member_info (al : option (list album_row)) (subs : subscribers)
    (album_name group_name : string) : option (list (string * string)) :=
  arows ← al; grows ← groups subs; mrows ← members subs;
  Some (flat_map (λ a,
          if bool_decide (name a = album_name)
          then flat_map (λ g,
                 if bool_decide (group_id a = g_id g ∧ g_name g = group_name)
                 then flat_map (λ m, if bool_decide (g_id g = m_group m)
                                     then [(m_name m, m_email m)] else []) mrows
                 else []) grows
          else []) arows).

(** Both functions return [None] for an empty result, and after catching the
    [ValueError] of [db_execute]. *)
Definition get_album_groups (al : option (list album_row)) (subs : subscribers)
    (album_name : string) : option (list string) :=
  match select_group_names al subs album_name with
  | Some (g :: gs) => Some (g :: gs)
  | _ => None
  end.

Definition get_member_info (al : option (list album_row)) (subs : subscribers)
    (album_name group_name : string) : option (list (string * string)) :=
  match select_member_info al subs album_name group_name with
  | Some (m :: ms) => Some (m :: ms)
  | _ => None
  end.

(** The first loop of [sendalerts] for one album: [members[album]], a set,
    listed here without repetition. Python fixes no order on a set; the
    properties proved of it speak of membership and repetition only. [None]: a [for] loop ran into [None]. *)
Definition album_members (al : option (list album_row)) (subs : subscribers)
    (album : string) : option (list (string * string)) :=
  group_list ← get_album_groups al subs album;
  infos ← mapM (get_member_info al subs album) group_list;
  Some (remove_dups (concat infos)).

(** [sendalerts]: the messages it goes on to build and send, [None] when the
    first loop raises [TypeError], which nothing catches. *)
Definition sendalerts (al : option (list album_row)) (subs : subscribers)
    (new_photo_count : list (string * Z)) : option (list message) :=
  members ← mapM (λ '(album, _), (λ l, (album, l)) <$> album_members al subs album)
                 new_photo_count;
  Some (flat_map (λ '(album, member_list),
                    (λ '(member_name, email),
                       Message member_name email album
                         (default 0 (dict_get album new_photo_count))) <$> member_list)
                 members).

(** A member linked to an album through a group. *)
Definition subscribed (arows : list album_row) (grows : list group_row)
    (mrows : list member_row) (album member_name email : string) : Prop :=
  ∃ a g m, a ∈ arows ∧ g ∈ grows ∧ m ∈ mrows
    ∧ name a = album ∧ group_id a = g_id g ∧ g_id g = m_group m
    ∧ m_name m = member_name ∧ m_email m = email.

End Alerts.

(** ** Sample worlds

    Small watch roots and stores on which the properties below are run. The
    digest is replaced by a tagging of the bytes, which keeps distinct
    contents apart as SHA-256 does in practice. *)

Module Sample.

Definition digest (data : list Byte.byte) : string := "sha:" +:+ string_of_list_byte data.

(** A disk given by the contents of its readable files. *)
Definition disk (contents : list (string * string)) (p : string) : option (list Byte.byte) :=
  list_byte_of_string <$> dict_get p contents.

Definition no_root : environment := Environment "/photos" None (disk []) digest.

(** The second example scenario of the specification: [A/1.jpg] was
    recorded, and the same bytes now lie at [B/1.jpg]. *)
Definition store_a1 : database :=
  Database (Some [FileRow 1 "A/1.jpg" "sha:one" 10]) 1 (Some [AlbumRow 1 "A" 1]) 1.

Definition moved_to_b : environment :=
  Environment "/photos" (Some (Dir "photos" [Dir "B" [File "1.jpg" 10]]))
    (disk [("/photos/B/1.jpg", "one")]) digest.

(** [A/1.jpg] rewritten in place: new bytes, new modification time. *)
Definition rewritten_a1 : environment :=
  Environment "/photos" (Some (Dir "photos" [Dir "A" [File "1.jpg" 11]]))
    (disk [("/photos/A/1.jpg", "two")]) digest.

(** [A/1.jpg] touched, and no longer readable. *)
Definition unreadable_a1 : environment :=
  Environment "/photos" (Some (Dir "photos" [Dir "A" [File "1.jpg" 11]; File "top.jpg" 5]))
    (disk [("/photos/top.jpg", "top")]) digest.

(** Two files with the same bytes. *)
Definition twins : environment :=
  Environment "/photos" (Some (Dir "photos" [Dir "A" [File "1.jpg" 10; File "copy.jpg" 12]]))
    (disk [("/photos/A/1.jpg", "one"); ("/photos/A/copy.jpg", "one")]) digest.

(** A tree with excluded names at several depths. *)
Definition cluttered : environment :=
  Environment "/photos"
    (Some (Dir "photos"
       [Dir "A" [File "1.jpg" 10; File "Thumbs.db" 3; Dir "@eaDir" [File "thumb.jpg" 4]];
        File "top.jpg" 5;
        Dir "#snapshot" [Dir "A" [File "1.jpg" 9]]]))
    (disk [("/photos/A/1.jpg", "one"); ("/photos/top.jpg", "top")]) digest.


Definition added_a2 : environment :=
  Environment "/photos" (Some (Dir "photos" [Dir "A" [File "1.jpg" 10; File "2.jpg" 20]]))
    (disk [("/photos/A/1.jpg", "one"); ("/photos/A/2.jpg", "two")]) digest.

Definition empty_store : database := Database None 0 None 0.

(** The store the first import of [added_a2] leaves. *)
Definition store_a1_a2 : database :=
  Database (Some [FileRow 1 "A/1.jpg" "sha:one" 10; FileRow 2 "A/2.jpg" "sha:two" 20]) 2
    (Some [AlbumRow 1 "A" 1]) 1.

End Sample.

(** * Properties *)

(** ** Running the monadic code when no store operation fails *)

Section Runs.

Variable env : environment.

Lemma db_execute_ok {A} (stmt : statement A) d h a d' :
  stmt d = Some (a, d') → db_execute stmt (World d [] h) = (Ok a, World d' [] h).
Proof. intros Hs. unfold db_execute. simpl. by rewrite Hs. Qed.

Lemma db_execute_fails {A} (stmt : statement A) w :
  fails stmt w → db_execute stmt w = (Raise ValueError, rolled_back w).
Proof.
  intros [Hf | Hs]; unfold db_execute, rolled_back.
  - destruct (faults w) as [|[] fs]; simpl in *; congruence.
  - rewrite Hs. by destruct (faults w) as [|[] fs].
Qed.

Lemma bind_ok {A B} (m : M A) (f : A → M B) w a w' :
  m w = (Ok a, w') → (m ≫= f) w = f a w'.
Proof. intros Hm. unfold mbind, M_bind. by rewrite Hm. Qed.

Lemma bind_raise {A B} (m : M A) (f : A → M B) w e w' :
  m w = (Raise e, w') → (m ≫= f) w = (Raise e, w').
Proof. intros Hm. unfold mbind, M_bind. by rewrite Hm. Qed.

Lemma try_except_ok {A} (body : M A) handler w a w' :
  body w = (Ok a, w') → try_except body handler w = (Ok a, w').
Proof. intros Hb. unfold try_except. by rewrite Hb. Qed.

Lemma try_except_raise {A} (body : M A) handler w e w' :
  body w = (Raise e, w') → try_except body handler w = handler e w'.
Proof. intros Hb. unfold try_except. by rewrite Hb. Qed.

Lemma process_file_run rows seq al aseq h full rel mt :
  process_file env full rel mt (World (Database (Some rows) seq al aseq) [] h) =
    let '(r, rows', seq', hs) := scan_one env rows seq (full, rel, mt) in
    (Ok r, World (Database (Some rows') seq' al aseq) [] (h ++ hs)).
Proof.
  unfold process_file, scan_one, stored.
  set (w := World _ _ _).
  assert (Hsel : db_execute (SQL.select_file rel) w
    = (Ok ((λ r, (checksum r, timestamp r)) <$> filter (λ r, path r = rel) rows), w))
    by (by apply db_execute_ok).
  assert (Hhash : hash_and_store env full rel mt w =
    match read_file env full with
    | Some data =>
        (Ok (sha256_hexdigest env data),
         World (Database (Some (rows ++ [FileRow (seq + 1) rel (sha256_hexdigest env data) mt]))
                  (seq + 1) al aseq) [] (h ++ [full]))
    | None => (Raise FileNotFoundError, World (Database (Some rows) seq al aseq) [] (h ++ [full]))
    end).
  { unfold hash_and_store, calculate_checksum, mbind, M_bind. simpl.
    destruct (read_file env full) as [data|]; [|done].
    by rewrite (db_execute_ok _ _ _ tt
      (Database (Some (rows ++ [FileRow (seq + 1) rel (sha256_hexdigest env data) mt]))
         (seq + 1) al aseq)). }
  unfold try_except, mbind at 1, M_bind at 1. rewrite Hsel.
  destruct (filter (λ r, path r = rel) rows) as [|r rest]; simpl.
  - unfold mbind, M_bind. rewrite Hhash.
    by destruct (read_file env full).
  - case_bool_decide.
    + unfold mbind, M_bind. rewrite Hhash. by destruct (read_file env full).
    + unfold mbind, M_bind, mret, M_ret. subst w. by rewrite app_nil_r.
Qed.

Lemma process_tasks_run tasks : ∀ rows seq al aseq h,
  process_tasks env tasks (World (Database (Some rows) seq al aseq) [] h) =
    let '(rs, rows', seq', hs) := scan env tasks rows seq in
    (Ok rs, World (Database (Some rows') seq' al aseq) [] (h ++ hs)).
Proof.
  induction tasks as [|[[full rel] mt] rest IH]; intros rows seq al aseq h;
    cbn [process_tasks scan].
  - by rewrite app_nil_r.
  - unfold mbind at 1, M_bind at 1. rewrite process_file_run.
    destruct (scan_one env rows seq (full, rel, mt)) as [[[r rows1] seq1] h1].
    unfold mbind, M_bind. rewrite IH.
    destruct (scan env rest rows1 seq1) as [[[rs rows2] seq2] h2].
    unfold mret, M_ret. by rewrite <- app_assoc.
Qed.

Lemma for_each_update_files {A} (f : A → list file_row → list file_row) (l : list A) :
  ∀ rows seq al aseq h,
  for_each l (λ x, db_execute (update_files (λ rows seq, (f x rows, seq))))
    (World (Database (Some rows) seq al aseq) [] h)
  = (Ok tt, World (Database (Some (foldl (λ rows x, f x rows) rows l)) seq al aseq) [] h).
Proof.
  induction l as [|x l IH]; intros rows seq al aseq h; [done|].
  cbn [for_each foldl]. by erewrite bind_ok; [apply IH|].
Qed.

Lemma for_each_update_albums {A} (f : A → list album_row → list album_row) (l : list A) :
  ∀ fs fseq rows seq h,
  for_each l (λ x, db_execute (update_albums (λ rows seq, (f x rows, seq))))
    (World (Database fs fseq (Some rows) seq) [] h)
  = (Ok tt, World (Database fs fseq (Some (foldl (λ rows x, f x rows) rows l)) seq) [] h).
Proof.
  induction l as [|x l IH]; intros fs fseq rows seq h; [done|].
  cbn [for_each foldl]. by erewrite bind_ok; [apply IH|].
Qed.

Lemma initialize_database_run rows seq al aseq h :
  initialize_database (World (Database (Some rows) seq al aseq) [] h)
  = (Ok tt, World (Database (Some rows) seq al aseq) [] h).
Proof. done. Qed.

Lemma initialize_database_creates seq al aseq h :
  initialize_database (World (Database None seq al aseq) [] h)
  = (Ok tt, World (Database (Some []) seq al aseq) [] h).
Proof. done. Qed.

Lemma load_prior_state_run rows seq al aseq h :
  load_prior_state (World (Database (Some rows) seq al aseq) [] h)
  = (Ok (prior_of rows), World (Database (Some rows) seq al aseq) [] h).
Proof. done. Qed.

Lemma detect_files_move_run cur prior rows seq al aseq h :
  detect_files_move cur prior (World (Database (Some rows) seq al aseq) [] h)
  = (Ok (moved_files cur prior),
     World (Database (Some (apply_moves (moved_files cur prior) rows)) seq al aseq) [] h).
Proof.
  unfold detect_files_move.
  erewrite bind_ok; [done|].
  apply (for_each_update_files (λ m, rename_rows (new_path m) (old_path m))).
Qed.

Lemma detect_files_delete_run cur prior rows seq al aseq h :
  detect_files_delete cur prior (World (Database (Some rows) seq al aseq) [] h)
  = (Ok (deleted_files cur prior),
     World (Database (Some (apply_deletes (deleted_files cur prior) rows)) seq al aseq) [] h).
Proof.
  unfold detect_files_delete.
  erewrite bind_ok; [done|].
  apply (for_each_update_files (λ p, filter (λ r, path r ≠ p))).
Qed.

Lemma check_removed_albums_run cur fs fseq al aseq h :
  check_removed_albums cur (World (Database fs fseq al aseq) [] h)
  = (Ok tt, World (Database fs fseq (pruned_albums cur al) aseq) [] h).
Proof.
  unfold check_removed_albums. destruct al as [rows|]; simpl.
  - apply try_except_ok.
    erewrite bind_ok; [|by apply db_execute_ok].
    apply (for_each_update_albums (λ n, filter (λ r, name r ≠ n))).
  - by erewrite try_except_raise; [|by erewrite bind_raise; [|by apply db_execute_fails; right]].
Qed.

Lemma for_each_insert_album names : ∀ fs fseq rows seq h,
  for_each names (λ album_name, db_execute (SQL.insert_album album_name 1))
    (World (Database fs fseq (Some rows) seq) [] h)
  = (Ok tt, World (Database fs fseq (Some (add_albums names rows seq).1)
                     (add_albums names rows seq).2) [] h).
Proof.
  induction names as [|n names IH]; intros fs fseq rows seq h; [done|].
  cbn [for_each]. by erewrite bind_ok; [apply IH|].
Qed.

Lemma initialize_albums_run rows seq al aseq h :
  initialize_albums (World (Database (Some rows) seq al aseq) [] h)
  = (Ok tt,
     World (Database (Some rows) seq
              (Some (add_albums (initial_album_names (path <$> rows)) (default [] al) aseq).1)
              (add_albums (initial_album_names (path <$> rows)) (default [] al) aseq).2) [] h).
Proof.
  unfold initialize_albums. apply try_except_ok.
  erewrite bind_ok; [|by apply db_execute_ok].
  destruct al as [arows|]; simpl.
  - erewrite bind_ok; [|by apply db_execute_ok]. apply for_each_insert_album.
  - erewrite bind_ok; [|by apply db_execute_ok]. apply for_each_insert_album.
Qed.

Lemma dict_set_nonempty {V} k (v : V) d : dict_set k v d ≠ [].
Proof. destruct d as [|[k' v'] d]; simpl; [done|]. by case_bool_decide. Qed.

Lemma prior_fold_nonempty (l : list (string * string * Z)) : ∀ d : list (string * prior_record),
  d ≠ [] → foldl (λ d '(p, c, t), dict_set p (PriorRecord c t) d) d l ≠ [].
Proof.
  induction l as [|[[p c] t] l IH]; intros d Hd; simpl; [done|].
  apply IH, dict_set_nonempty.
Qed.

Lemma prior_of_nonempty rows : rows ≠ [] → prior_of rows ≠ [].
Proof.
  unfold prior_of. destruct rows as [|r rows]; [done|]. intros _.
  rewrite fmap_cons. cbn [foldl]. apply prior_fold_nonempty, dict_set_nonempty.
Qed.

(** A pass over a non-empty files table: the classification and the store
    afterwards, in terms of the tables. *)
Lemma main_later_pass n rows seq al aseq h :
  tree env = Some n → rows ≠ [] →
  main env (World (Database (Some rows) seq al aseq) [] h) =
    let prior := prior_of rows in
    let '(cur, rows1, seq1, hs) := scan env (file_tasks env n) rows seq in
    let new := detect_files_new cur prior in
    (Ok (Completed new (moved_files cur prior) (deleted_files cur prior)
           match new with [] => None | _ => Some (get_album_photo_counts new) end),
     World (Database
              (Some (apply_deletes (deleted_files cur prior)
                       (apply_moves (moved_files cur prior) rows1)))
              seq1 (pruned_albums cur al) aseq) [] (h ++ hs)).
Proof.
  intros Hn Hrows. unfold main. rewrite Hn.
  erewrite bind_ok; [|apply initialize_database_run].
  erewrite bind_ok; [|apply load_prior_state_run].
  pose proof (prior_of_nonempty rows Hrows) as Hp.
  destruct (prior_of rows) as [|kv prior] eqn:Eprior; [done|]. clear Hp.
  unfold get_file_list.
  pose proof (process_tasks_run (file_tasks env n) rows seq al aseq h) as Hscan.
  destruct (scan env (file_tasks env n) rows seq) as [[[cur rows1] seq1] hs].
  erewrite bind_ok; [|exact Hscan].
  erewrite bind_ok; [|apply check_removed_albums_run].
  erewrite bind_ok; [|apply detect_files_move_run].
  erewrite bind_ok; [|apply detect_files_delete_run].
  done.
Qed.

(** The first import: an absent or empty files table. *)
Lemma main_first_run n fs seq al aseq h :
  tree env = Some n → default [] fs = [] →
  main env (World (Database fs seq al aseq) [] h) =
    let '(cur, rows1, seq1, hs) := scan env (file_tasks env n) [] seq in
    let names := initial_album_names (path <$> rows1) in
    (Ok FirstRun,
     World (Database (Some rows1) seq1
              (Some (add_albums names (default [] al) aseq).1)
              (add_albums names (default [] al) aseq).2) [] (h ++ hs)).
Proof.
  intros Hn Hfs. unfold main. rewrite Hn.
  assert (Hinit : initialize_database (World (Database fs seq al aseq) [] h)
                  = (Ok tt, World (Database (Some []) seq al aseq) [] h)).
  { destruct fs as [rows|]; [|done]. simpl in Hfs. by subst rows. }
  erewrite bind_ok; [|exact Hinit].
  erewrite bind_ok; [|apply load_prior_state_run].
  cbn [prior_of fmap list_fmap foldl]. unfold get_file_list.
  pose proof (process_tasks_run (file_tasks env n) [] seq al aseq h) as Hscan.
  destruct (scan env (file_tasks env n) [] seq) as [[[cur rows1] seq1] hs].
  erewrite bind_ok; [|exact Hscan].
  erewrite bind_ok; [|apply initialize_albums_run].
  done.
Qed.

End Runs.

(** ** The watch root *)

(** C8. When the configured watch root does not exist, [main] prints the
    error, exits with code 1 and has touched nothing: the world is returned
    as it was (no statement run against the store, no file opened). *)
Theorem missing_root_aborts (env : environment) (w : world) :
  tree env = None →
  main env w
  = (Ok (MissingRoot ("Directory '" +:+ shared_photos env +:+ "' does not exist. Exiting.")), w)
  ∧ ∀ message, exit_code (MissingRoot message) = Some 1.
Proof. intros Hroot. unfold main. by rewrite Hroot. Qed.

Lemma missing_root_aborts_sample :
  tree Sample.no_root = None
  ∧ main Sample.no_root (World Sample.store_a1 [] [])
    = (Ok (MissingRoot "Directory '/photos' does not exist. Exiting."),
       World Sample.store_a1 [] []).
Proof.
  split; [reflexivity|].
  exact (proj1 (missing_root_aborts Sample.no_root (World Sample.store_a1 [] []) eq_refl)).
Defined.

(** ** Per-file processing *)



(** C3. The upsert of a scanned entry does not keep one record per path:
    over a table with the single row of [A/1.jpg], processing the rewritten
    [A/1.jpg] leaves two rows with that path. (The rename of a detected move
    does the same, [rename_duplicates_path] below.) *)
Example upsert_duplicates_path :
  unique_paths [FileRow 1 "A/1.jpg" "sha:one" 10]
  ∧ process_file Sample.rewritten_a1 "/photos/A/1.jpg" "A/1.jpg" 11
      (World Sample.store_a1 [] [])
    = (Ok (Some (ScanEntry "A/1.jpg" "sha:two" 11)),
       World (Database (Some [FileRow 1 "A/1.jpg" "sha:one" 10; FileRow 2 "A/1.jpg" "sha:two" 11])
                2 (Some [AlbumRow 1 "A" 1]) 1) [] ["/photos/A/1.jpg"])
  ∧ ¬ unique_paths [FileRow 1 "A/1.jpg" "sha:one" 10; FileRow 2 "A/1.jpg" "sha:two" 11].
Proof.
  split; [|split].
  - unfold unique_paths. simpl. apply NoDup_singleton.
  - reflexivity.
  - unfold unique_paths. simpl. intros Hnd. apply NoDup_cons in Hnd as [Hnotin _].
    apply Hnotin. left.
Qed.

(** The pass over the moved file: the row written by the scan and the
    renamed row end up on the same path. *)
Example rename_duplicates_path :
  let w' := (main Sample.moved_to_b (World Sample.store_a1 [] [])).2 in
  files (db w') = Some [FileRow 1 "B/1.jpg" "sha:one" 10; FileRow 2 "B/1.jpg" "sha:one" 10].
Proof. vm_compute. reflexivity. Qed.

(** The parts of C3 that hold: deleting a path and renaming onto a path that
    has no row keep one record per path. *)
Lemma delete_keeps_unique_paths p rows :
  unique_paths rows → unique_paths (filter (λ r, path r ≠ p) rows).
Proof.
  unfold unique_paths. induction rows as [|r rows IH]; [done|].
  rewrite fmap_cons, NoDup_cons. intros [Hr Hnd].
  rewrite filter_cons. case_decide; [|by apply IH].
  rewrite fmap_cons, NoDup_cons. split; [|by apply IH].
  intros Hin. apply Hr. apply list_elem_of_fmap in Hin as (r' & -> & Hin).
  apply list_elem_of_fmap. exists r'. split; [done|].
  by apply list_elem_of_filter in Hin as [_ ?].
Qed.

Lemma rename_rows_paths new old rows p :
  p ∈ path <$> rename_rows new old rows → p = new ∨ p ∈ path <$> rows.
Proof.
  unfold rename_rows. rewrite <- list_fmap_compose.
  intros (r & -> & Hr)%list_elem_of_fmap. simpl.
  case_bool_decide; [by left|right; by apply list_elem_of_fmap_2].
Qed.

Lemma rename_rows_absent new old rows :
  old ∉ path <$> rows → rename_rows new old rows = rows.
Proof.
  unfold rename_rows. induction rows as [|r rows IH]; [done|].
  rewrite !fmap_cons, not_elem_of_cons. intros [Hne Hnot].
  rewrite bool_decide_false by done. by rewrite IH.
Qed.

Lemma rename_keeps_unique_paths new old rows :
  unique_paths rows → new ∉ path <$> rows → unique_paths (rename_rows new old rows).
Proof.
  unfold unique_paths. induction rows as [|r rows IH]; [done|].
  rewrite fmap_cons, NoDup_cons, not_elem_of_cons. intros [Hr Hnd] [Hne Hnew].
  change (rename_rows new old (r :: rows))
    with ((if bool_decide (path r = old)
           then FileRow (file_id r) new (checksum r) (timestamp r) else r)
          :: rename_rows new old rows).
  rewrite fmap_cons, NoDup_cons. split; [|by apply IH].
  case_bool_decide as Hold; simpl.
  - rewrite rename_rows_absent by (by rewrite <- Hold). done.
  - intros [Heq|Hin]%rename_rows_paths; [by apply Hne|done].
Qed.

(** ** Store errors *)

Lemma try_except_total {A} (body : M A) (x : A) w :
  ∃ r w', try_except body (λ _, mret x) w = (Ok r, w').
Proof. unfold try_except. destruct (body w) as [[a|e] w']; by eexists _, _. Qed.

Lemma process_file_total env full rel mt w :
  ∃ r w', process_file env full rel mt w = (Ok r, w').
Proof. apply try_except_total. Qed.

Lemma process_tasks_total env tasks : ∀ w,
  ∃ rs w', process_tasks env tasks w = (Ok rs, w').
Proof.
  induction tasks as [|[[full rel] mt] tasks IH]; intros w; [by eexists _, _|].
  cbn [process_tasks].
  destruct (process_file_total env full rel mt w) as (r & w1 & Hr).
  destruct (IH w1) as (rs & w2 & Hrs).
  eexists _, _. erewrite bind_ok; [|exact Hr]. by erewrite bind_ok; [|exact Hrs].
Qed.

(** Whatever fails inside [process_file], the entry is dropped with the
    store as it was. *)
Lemma process_file_skip_keeps_store env full rel mt w w' :
  process_file env full rel mt w = (Ok None, w') → db w' = db w.
Proof.
  unfold process_file, try_except, hash_and_store, calculate_checksum, db_execute.
  unfold mbind, M_bind, mret, M_ret, SQL.select_file, SQL.insert_or_replace_file,
    query_files, update_files.
  destruct w as [[[rows|] fseq al aseq] f h]; simpl;
    repeat (case_match; simplify_eq/=; try done); by intros [= <-].
Qed.




(** ** The walk *)

Lemma node_rect_nested (P : node → Prop) :
  (∀ f mt, P (File f mt)) →
  (∀ d children, Forall P children → P (Dir d children)) →
  ∀ n, P n.
Proof.
  intros Hfile Hdir. fix IH 1. intros [f mt|d children]; [apply Hfile|].
  apply Hdir. induction children as [|c children IHc]; constructor; [apply IH|exact IHc].
Qed.

Lemma elem_of_flat_map {A B} (f : A → list B) (l : list A) (y : B) :
  y ∈ flat_map f l ↔ ∃ x, x ∈ l ∧ y ∈ f x.
Proof.
  rewrite list_elem_of_In, in_flat_map. split; intros (x & Hx & Hy); exists x.
  - by rewrite !list_elem_of_In.
  - by rewrite <- !list_elem_of_In.
Qed.

Lemma elem_of_file_names f mt children :
  (f, mt) ∈ file_names children ↔ File f mt ∈ children.
Proof.
  unfold file_names. rewrite elem_of_flat_map. split.
  - intros ([f' mt'|d sub] & Hin & Hf); [|by apply elem_of_nil in Hf].
    by apply list_elem_of_singleton in Hf as [= -> ->].
  - intros Hin. exists (File f mt). split; [done|]. apply list_elem_of_singleton. done.
Qed.

Lemma elem_of_dir_names d children :
  d ∈ dir_names children ↔ ∃ sub, Dir d sub ∈ children.
Proof.
  unfold dir_names. rewrite elem_of_flat_map. split.
  - intros ([f' mt'|d' sub] & Hin & Hd); [by apply elem_of_nil in Hd|].
    apply list_elem_of_singleton in Hd as ->. by exists sub.
  - intros (sub & Hin). exists (Dir d sub). split; [done|]. by apply list_elem_of_singleton.
Qed.

(** Every triple the walk yields belongs to a directory reached through
    names that are not excluded. *)
Lemma os_walk_sound n : ∀ root r ds fs,
  (r, ds, fs) ∈ os_walk root n →
  ∃ dirs entries, r = root ++ dirs ∧ Forall (λ d, d ∉ excluded_dirs) dirs
    ∧ reaches n dirs entries ∧ fs = file_names entries
    ∧ ds = filter (λ d, d ∉ excluded_dirs) (dir_names entries).
Proof.
  induction n as [f mt|name children IH] using node_rect_nested; intros root r ds fs Hin.
  - by apply elem_of_nil in Hin.
  - cbn [os_walk] in Hin. apply elem_of_cons in Hin as [[= -> -> ->]|Hin].
    + exists [], children. rewrite app_nil_r. repeat split; [constructor|constructor].
    + apply elem_of_flat_map in Hin as ([f mt|d sub] & Hc & Hin); [by apply elem_of_nil in Hin|].
      case_bool_decide as Hd; [|by apply elem_of_nil in Hin].
      rewrite Forall_forall in IH. destruct (IH _ Hc _ _ _ _ Hin)
        as (dirs & entries & -> & Hdirs & Hreach & -> & ->).
      exists (d :: dirs), entries. rewrite <- app_assoc. repeat split.
      * constructor; [|done]. by apply list_elem_of_filter in Hd as [? _].
      * by apply reaches_below with sub.
Qed.

(** Every directory reached through names that are not excluded is walked. *)
Lemma os_walk_complete n dirs entries :
  reaches n dirs entries → Forall (λ d, d ∉ excluded_dirs) dirs →
  ∀ root, (root ++ dirs, filter (λ d, d ∉ excluded_dirs) (dir_names entries),
           file_names entries) ∈ os_walk root n.
Proof.
  induction 1 as [name children|name children d sub dirs entries Hc Hreach IH];
    intros Hdirs root; cbn [os_walk].
  - rewrite app_nil_r. left.
  - apply Forall_cons in Hdirs as [Hd Hdirs]. right.
    apply elem_of_flat_map. exists (Dir d sub). split; [done|].
    rewrite bool_decide_true.
    + specialize (IH Hdirs (root ++ [d])). by rewrite <- app_assoc in IH.
    + apply list_elem_of_filter. split; [done|]. apply elem_of_dir_names. by exists sub.
Qed.

(** The files the scan keeps are the files of the tree that carry no
    excluded name, neither their own nor that of a directory above them. *)
Lemma walk_files_spec n dirs f mt :
  (dirs, f, mt) ∈ walk_files n
  ↔ located n dirs f mt ∧ (f ∉ excluded_files) ∧ Forall (λ d, d ∉ excluded_dirs) dirs.
Proof.
  unfold walk_files, located. rewrite elem_of_flat_map. split.
  - intros ([[r ds] fs] & Hwalk & Hin).
    apply list_elem_of_fmap in Hin as ([f' mt'] & [= -> -> ->] & Hin).
    apply list_elem_of_filter in Hin as [Hf Hin].
    apply os_walk_sound in Hwalk as (dirs & entries & -> & Hdirs & Hreach & -> & _).
    split; [|done]. exists entries. split; [done|]. by apply elem_of_file_names.
  - intros ((entries & Hreach & Hin) & Hf & Hdirs).
    eexists. split; [apply (os_walk_complete _ _ _ Hreach Hdirs [])|].
    apply list_elem_of_fmap. exists (f, mt). split; [done|].
    apply list_elem_of_filter. split; [done|]. by apply elem_of_file_names.
Qed.

Lemma process_file_entry env full rel mt w e w' :
  process_file env full rel mt w = (Ok (Some e), w') → se_path e = rel ∧ se_timestamp e = mt.
Proof.
  unfold process_file, try_except, hash_and_store, calculate_checksum, db_execute.
  unfold mbind, M_bind, mret, M_ret.
  repeat (case_match; simplify_eq/=; try done); by intros [= <- _].
Qed.

Lemma process_tasks_paths env tasks : ∀ w cur w',
  process_tasks env tasks w = (Ok cur, w') →
  Forall (λ e, ∃ full, (full, se_path e, se_timestamp e) ∈ tasks) cur.
Proof.
  induction tasks as [|[[full rel] mt] tasks IH]; intros w cur w' Hrun.
  - injection Hrun as <- _. constructor.
  - cbn [process_tasks] in Hrun.
    destruct (process_file_total env full rel mt w) as (r & w1 & Hr).
    erewrite bind_ok in Hrun; [|exact Hr].
    destruct (process_tasks_total env tasks w1) as (rs & w2 & Hrs).
    erewrite bind_ok in Hrun; [|exact Hrs]. injection Hrun as <- _.
    specialize (IH _ _ _ Hrs).
    assert (Htl : Forall (λ e, ∃ full0,
               (full0, se_path e, se_timestamp e) ∈ (full, rel, mt) :: tasks) rs).
    { eapply Forall_impl; [exact IH|]. intros e (full0 & Hin). exists full0. by right. }
    destruct r as [e|]; [|done]. constructor; [|done].
    apply process_file_entry in Hr as [<- <-]. exists full. left.
Qed.

(** C7. Whatever the tree and the state of the store, the scan returns, and
    every entry it returns is the relative path of a file of the tree whose
    name is not an excluded file name and which lies under no directory with
    an excluded name, at any depth; the walk does not even enter such a
    directory: every directory it visits, and every directory it is about to
    descend into, is reached through names that are not excluded. *)
Theorem scan_respects_exclusions (env : environment) (n : node) (w : world) :
  ∃ cur w', get_file_list env n w = (Ok cur, w')
    ∧ Forall (λ e, ∃ dirs f mt,
                se_path e = relative_path_of dirs f
                ∧ located n dirs f mt
                ∧ (f ∉ excluded_files)
                ∧ Forall (λ d, d ∉ excluded_dirs) dirs) cur
    ∧ Forall (λ '(root, dirs, _), Forall (λ d, d ∉ excluded_dirs) (root ++ dirs))
        (os_walk [] n).
Proof.
  destruct (process_tasks_total env (file_tasks env n) w) as (cur & w' & Hrun).
  exists cur, w'. split; [exact Hrun|]. split.
  - eapply Forall_impl; [exact (process_tasks_paths _ _ _ _ _ Hrun)|].
    intros e (full & Hin). unfold file_tasks in Hin.
    apply list_elem_of_fmap in Hin as ([[dirs f] mt] & Htask & Hin).
    injection Htask as _ Hpath _. exists dirs, f, mt. split; [done|].
    by apply walk_files_spec.
  - apply Forall_forall. intros [[root dirs] fs] Hin.
    apply os_walk_sound in Hin as (ds & entries & -> & Hds & _ & _ & ->).
    apply Forall_app. split; [done|].
    apply Forall_forall. intros d Hd. by apply list_elem_of_filter in Hd as [? _].
Qed.

(** The scan of the cluttered sample tree. *)
Example scan_of_cluttered_tree :
  file_tasks Sample.cluttered
    (Dir "photos"
       [Dir "A" [File "1.jpg" 10; File "Thumbs.db" 3; Dir "@eaDir" [File "thumb.jpg" 4]];
        File "top.jpg" 5;
        Dir "#snapshot" [Dir "A" [File "1.jpg" 9]]])
  = [("/photos/top.jpg", "top.jpg", 5); ("/photos/A/1.jpg", "A/1.jpg", 10)].
Proof. vm_compute. reflexivity. Qed.

(** ** Albums *)

Lemma filter_on_members {A} (P Q : A → Prop) `{!∀ x, Decision (P x), !∀ x, Decision (Q x)}
    (l : list A) :
  (∀ x, x ∈ l → P x ↔ Q x) → filter P l = filter Q l.
Proof.
  induction l as [|x l IH]; intros Hpq; [done|].
  rewrite !filter_cons.
  rewrite IH by (intros y Hy; apply Hpq; by right).
  destruct (decide (P x)) as [Hp|Hp], (decide (Q x)) as [Hq|Hq]; try done.
  - exfalso. apply Hq, Hpq; [left|done].
  - exfalso. apply Hp, Hpq; [left|done].
Qed.

Lemma remove_albums_filter names : ∀ al,
  remove_albums names al = filter (λ r, name r ∉ names) al.
Proof.
  unfold remove_albums. induction names as [|n names IH]; intros al; cbn [foldl].
  - symmetry. induction al as [|r al IHal]; [done|].
    rewrite filter_cons_True by apply not_elem_of_nil. by rewrite IHal.
  - rewrite IH, list_filter_filter. apply list_filter_iff. intros r.
    rewrite not_elem_of_cons. tauto.
Qed.

(** [check_removed_albums] keeps exactly the album rows whose name is a
    grouping key of the scan. *)
Lemma pruned_albums_filter cur al :
  pruned_albums cur (Some al) = Some (filter (λ r, name r ∈ current_keys cur) al).
Proof.
  unfold pruned_albums. simpl. f_equal. rewrite remove_albums_filter.
  apply filter_on_members. intros r Hr.
  rewrite elem_of_elements, elem_of_difference, !elem_of_list_to_set.
  assert (name r ∈ name <$> al) by (by apply list_elem_of_fmap_2).
  split; [|tauto]. intros Hnot. destruct (decide (name r ∈ current_keys cur)); tauto.
Qed.

(** C1, as the code has it. A pass over a non-empty files table that meets
    no store error ends with exactly those album rows it found whose name is
    a grouping key of the entries of the current scan: albums whose key is no
    longer derived are deleted, and no album is inserted. *)
Theorem later_pass_only_prunes_albums (env : environment) (n : node)
    (rows : list file_row) (seq : Z) (al : list album_row) (aseq : Z) (h : list string) :
  tree env = Some n → rows ≠ [] →
  let w := World (Database (Some rows) seq (Some al) aseq) [] h in
  ∃ cur w1 new moved deleted alerts w',
    get_file_list env n w = (Ok cur, w1)
    ∧ main env w = (Ok (Completed new moved deleted alerts), w')
    ∧ albums (db w') = Some (filter (λ r, name r ∈ current_keys cur) al)
    ∧ ∀ k, k ∈ album_names (db w') ↔ k ∈ name <$> al ∧ k ∈ current_keys cur.
Proof.
  intros Hn Hrows w. subst w.
  pose proof (main_later_pass env n rows seq (Some al) aseq h Hn Hrows) as Hmain.
  pose proof (process_tasks_run env (file_tasks env n) rows seq (Some al) aseq h) as Hscan.
  cbv zeta in Hmain.
  destruct (scan env (file_tasks env n) rows seq) as [[[cur rows1] seq1] hs].
  eexists cur, _, _, _, _, _, _. split; [exact Hscan|]. split; [exact Hmain|].
  cbn [db albums]. rewrite pruned_albums_filter. split; [done|].
  intros k. unfold album_names. cbn [db albums default].
  rewrite !list_elem_of_fmap. split.
  - intros (r & -> & Hr). apply list_elem_of_filter in Hr as [Hkey Hr].
    split; [by exists r|done].
  - intros [(r & -> & Hr) Hkey]. exists r. split; [done|]. by apply list_elem_of_filter.
Qed.

Lemma later_pass_only_prunes_albums_sample :
  tree Sample.moved_to_b = Some (Dir "photos" [Dir "B" [File "1.jpg" 10]])
  ∧ ∃ cur w1 new moved deleted alerts w',
      get_file_list Sample.moved_to_b (Dir "photos" [Dir "B" [File "1.jpg" 10]])
        (World Sample.store_a1 [] []) = (Ok cur, w1)
      ∧ main Sample.moved_to_b (World Sample.store_a1 [] [])
        = (Ok (Completed new moved deleted alerts), w')
      ∧ albums (db w') = Some (filter (λ r, name r ∈ current_keys cur) [AlbumRow 1 "A" 1])
      ∧ ∀ k, k ∈ album_names (db w') ↔ k ∈ name <$> [AlbumRow 1 "A" 1] ∧ k ∈ current_keys cur.
Proof.
  split; [reflexivity|].
  apply (later_pass_only_prunes_albums Sample.moved_to_b
           (Dir "photos" [Dir "B" [File "1.jpg" 10]])
           [FileRow 1 "A/1.jpg" "sha:one" 10] 1 [AlbumRow 1 "A" 1] 1 []); [reflexivity|].
  intros Hnil. discriminate Hnil.
Defined.

(** C1 as stated fails: after the pass over the moved file the files table
    records [B/1.jpg], whose grouping key is [B], and the albums table is
    empty. *)
Lemma later_pass_leaves_album_missing :
  let w' := (main Sample.moved_to_b (World Sample.store_a1 [] [])).2 in
  derived_keys (db w') = ["B"; "B"] ∧ album_names (db w') = [].
Proof. vm_compute. split; reflexivity. Qed.

(** The two derivations of an album name differ for files directly under
    the watch root: the first import names their album with the empty
    string, [check_removed_albums] looks for [.], and the next pass removes
    the album although its files are still there. *)
Example root_album_is_pruned :
  let w1 := (main Sample.cluttered (World Sample.empty_store [] [])).2 in
  let w2 := (main Sample.cluttered w1).2 in
  album_names (db w1) = [EmptyString; "A"]
  ∧ album_names (db w2) = ["A"]
  ∧ derived_keys (db w2) = ["."; "A"].
Proof. vm_compute. repeat split; reflexivity. Qed.

Lemma album_name_of_normal p :
  PosixPath.normpath (PosixPath.dirname p) = PosixPath.dirname p → album_name_of p = album_key p.
Proof. intros Hnorm. unfold album_name_of, album_key. by rewrite Hnorm. Qed.

(** ** Dictionaries *)

Section Dict.

Context {V : Type}.
Implicit Types (d : list (string * V)) (k : string) (v : V).

Lemma dict_get_set_eq k v d : dict_get k (dict_set k v d) = Some v.
Proof.
  induction d as [|[k' v'] d IH]; simpl.
  - by rewrite bool_decide_true.
  - case_bool_decide as Hk; simpl; [by rewrite bool_decide_true|].
    by rewrite bool_decide_false.
Qed.

Lemma dict_get_set_ne k k' v d : k ≠ k' → dict_get k (dict_set k' v d) = dict_get k d.
Proof.
  intros Hne. induction d as [|[k0 v0] d IH]; simpl.
  - by rewrite bool_decide_false.
  - case_bool_decide as Hk; simpl.
    + subst k0. by rewrite !bool_decide_false.
    + by rewrite IH.
Qed.

Lemma dict_keys_set k k' v d : k ∈ dict_keys (dict_set k' v d) ↔ k = k' ∨ k ∈ dict_keys d.
Proof.
  unfold dict_keys. induction d as [|[k0 v0] d IH]; simpl.
  - rewrite list_elem_of_singleton, elem_of_nil. tauto.
  - case_bool_decide as Hk; simpl; rewrite !elem_of_cons.
    + subst k0. tauto.
    + rewrite IH. tauto.
Qed.

Lemma dict_get_Some_keys k v d : dict_get k d = Some v → k ∈ dict_keys d.
Proof.
  unfold dict_keys. induction d as [|[k0 v0] d IH]; simpl; [done|].
  case_bool_decide as Hk; [intros _; subst; left|intros Hget; right; by apply IH].
Qed.

Lemma dict_get_None_keys k d : dict_get k d = None ↔ k ∉ dict_keys d.
Proof.
  unfold dict_keys. induction d as [|[k0 v0] d IH]; simpl.
  - split; [intros _; apply not_elem_of_nil|done].
  - rewrite not_elem_of_cons. case_bool_decide as Hk.
    + split; [done|]. intros [Hne _]. by subst.
    + rewrite IH. split; [by split|tauto].
Qed.

End Dict.

(** What [load_prior_state] knows: the keys are the recorded paths, and a
    key maps to the fingerprint and time of a row with that path (the last
    one, when the path has several rows). *)
Lemma prior_fold_keys (l : list (string * string * Z)) : ∀ (d : list (string * prior_record)) k,
  k ∈ dict_keys (foldl (λ d '(p, c, t), dict_set p (PriorRecord c t) d) d l)
  ↔ k ∈ dict_keys d ∨ k ∈ l.*1.*1.
Proof.
  induction l as [|[[p c] t] l IH]; intros d k; simpl.
  - rewrite elem_of_nil. tauto.
  - rewrite IH, dict_keys_set, elem_of_cons. tauto.
Qed.

Lemma prior_of_keys rows k : k ∈ dict_keys (prior_of rows) ↔ k ∈ path <$> rows.
Proof.
  unfold prior_of. rewrite prior_fold_keys. unfold dict_keys at 1. simpl.
  rewrite elem_of_nil, <- !list_fmap_compose. tauto.
Qed.

Lemma prior_fold_get (l : list (string * string * Z)) : ∀ (d : list (string * prior_record)) k v,
  dict_get k (foldl (λ d '(p, c, t), dict_set p (PriorRecord c t) d) d l) = Some v →
  dict_get k d = Some v ∨ (k, pr_checksum v, pr_timestamp v) ∈ l.
Proof.
  induction l as [|[[p c] t] l IH]; intros d k v; simpl; [by left|].
  intros Hget. apply IH in Hget as [Hget|Hin]; [|right; by right].
  destruct (decide (k = p)) as [->|Hne].
  - rewrite dict_get_set_eq in Hget. injection Hget as <-. right. left.
  - rewrite dict_get_set_ne in Hget by done. by left.
Qed.

Lemma prior_of_get rows k v :
  dict_get k (prior_of rows) = Some v →
  ∃ r, r ∈ rows ∧ path r = k ∧ checksum r = pr_checksum v ∧ timestamp r = pr_timestamp v.
Proof.
  intros Hget. apply prior_fold_get in Hget as [Hget|Hin]; [done|].
  apply list_elem_of_fmap in Hin as (r & [= -> Hc Ht] & Hr). by exists r.
Qed.

Lemma NoDup_fmap_eq {A B} (f : A → B) (l : list A) x y :
  NoDup (f <$> l) → x ∈ l → y ∈ l → f x = f y → x = y.
Proof.
  induction l as [|a l IH]; intros Hnd Hx Hy Hf; [by apply elem_of_nil in Hx|].
  rewrite fmap_cons in Hnd. apply NoDup_cons in Hnd as [Ha Hnd].
  apply elem_of_cons in Hx as [->|Hx], Hy as [->|Hy]; [done| | |by apply IH].
  - exfalso. apply Ha. rewrite Hf. by apply list_elem_of_fmap_2.
  - exfalso. apply Ha. rewrite <- Hf. by apply list_elem_of_fmap_2.
Qed.

Lemma prior_of_get_unique rows r :
  unique_paths rows → r ∈ rows →
  dict_get (path r) (prior_of rows) = Some (PriorRecord (checksum r) (timestamp r)).
Proof.
  intros Hu Hr.
  destruct (dict_get (path r) (prior_of rows)) as [v|] eqn:Hget.
  - apply prior_of_get in Hget as (r' & Hr' & Hp & Hc & Ht).
    assert (r' = r) as -> by (by eapply (NoDup_fmap_eq path)).
    destruct v. simpl in *. by subst.
  - apply dict_get_None_keys in Hget. exfalso. apply Hget, prior_of_keys.
    by apply list_elem_of_fmap_2.
Qed.

Lemma dict_get_Some_elem {V} k (v : V) d : dict_get k d = Some v → (k, v) ∈ d.
Proof.
  induction d as [|[k0 v0] d IH]; simpl; [done|].
  case_bool_decide as Hk; [intros [= <-]; subst; left|intros Hget; right; by apply IH].
Qed.

Lemma elem_of_dict_set {V} k (v : V) k' v' d :
  (k, v) ∈ dict_set k' v' d → (k, v) = (k', v') ∨ (k, v) ∈ d.
Proof.
  induction d as [|[k0 v0] d IH]; simpl.
  - rewrite list_elem_of_singleton. tauto.
  - case_bool_decide as Hk; rewrite !elem_of_cons; [tauto|].
    intros [Heq|Hin]; [tauto|]. apply IH in Hin. tauto.
Qed.

Lemma prior_of_elem rows k v :
  (k, v) ∈ prior_of rows →
  ∃ r, r ∈ rows ∧ path r = k ∧ checksum r = pr_checksum v ∧ timestamp r = pr_timestamp v.
Proof.
  unfold prior_of.
  assert (Hgen : ∀ (l : list (string * string * Z)) (d : list (string * prior_record)),
    (k, v) ∈ foldl (λ d '(p, c, t), dict_set p (PriorRecord c t) d) d l →
    (k, v) ∈ d ∨ (k, pr_checksum v, pr_timestamp v) ∈ l).
  { induction l as [|[[p c] t] l IH]; intros d; simpl; [by left|].
    intros Hin. apply IH in Hin as [Hin|Hin]; [|right; by right].
    apply elem_of_dict_set in Hin as [[= -> ->]|Hin]; [right; left|by left]. }
  intros Hin. apply Hgen in Hin as [Hin|Hin]; [by apply elem_of_nil in Hin|].
  apply list_elem_of_fmap in Hin as (r & [= -> Hc Ht] & Hr). by exists r.
Qed.

(** The reverse index of the move mode: a fingerprint is indexed exactly
    when some prior record carries it, and it is indexed to the path of such
    a record. *)
Lemma index_fold_get (l : list (string * prior_record)) : ∀ (d : list (string * string)) c o,
  dict_get c (foldl (λ d '(k, v), dict_set (pr_checksum v) k d) d l) = Some o →
  dict_get c d = Some o ∨ ∃ v, (o, v) ∈ l ∧ pr_checksum v = c.
Proof.
  induction l as [|[k v] l IH]; intros d c o; simpl; [by left|].
  intros Hget. apply IH in Hget as [Hget|(v' & Hin & Hc)].
  - destruct (decide (c = pr_checksum v)) as [->|Hne].
    + rewrite dict_get_set_eq in Hget. injection Hget as <-. right. exists v. split; [left|done].
    + rewrite dict_get_set_ne in Hget by done. by left.
  - right. exists v'. split; [by right|done].
Qed.



Lemma prior_checksums_get prior c o :
  dict_get c (prior_checksums prior) = Some o → ∃ v, (o, v) ∈ prior ∧ pr_checksum v = c.
Proof. intros Hget. by apply index_fold_get in Hget as [Hget|Hin]. Qed.


(** ** The three classifications *)

Lemma elem_of_moved_files cur prior m :
  m ∈ moved_files cur prior
  ↔ ∃ e, e ∈ cur ∧ dict_get (se_checksum e) (prior_checksums prior) = Some (old_path m)
         ∧ old_path m ≠ se_path e ∧ new_path m = se_path e.
Proof.
  unfold moved_files. rewrite elem_of_flat_map. split.
  - intros (e & He & Hm). exists e. split; [done|].
    destruct (dict_get (se_checksum e) (prior_checksums prior)) as [o|];
      [|by apply elem_of_nil in Hm].
    case_bool_decide; [|by apply elem_of_nil in Hm].
    by apply list_elem_of_singleton in Hm as ->.
  - intros (e & He & Hget & Hne & Hnew). exists e. split; [done|].
    rewrite Hget, bool_decide_true by done. destruct m. simpl in *. subst. left.
Qed.


Lemma elem_of_deleted_files cur prior p :
  p ∈ deleted_files cur prior ↔ p ∈ dict_keys prior ∧ p ∉ se_path <$> cur.
Proof. unfold deleted_files. rewrite list_elem_of_filter. tauto. Qed.

Lemma apply_deletes_filter deleted : ∀ rows,
  apply_deletes deleted rows = filter (λ r, path r ∉ deleted) rows.
Proof.
  unfold apply_deletes. induction deleted as [|p deleted IH]; intros rows; cbn [foldl].
  - symmetry. induction rows as [|r rows IHr]; [done|].
    rewrite filter_cons_True by apply not_elem_of_nil. by rewrite IHr.
  - rewrite IH, list_filter_filter. apply list_filter_iff. intros r.
    rewrite not_elem_of_cons. tauto.
Qed.

Lemma apply_moves_keeps moved : ∀ rows r,
  r ∈ rows → (∀ m, m ∈ moved → old_path m ≠ path r) → r ∈ apply_moves moved rows.
Proof.
  unfold apply_moves. induction moved as [|m moved IH]; intros rows r Hr Hold; [done|].
  cbn [foldl]. apply IH; [|intros m' Hm'; apply Hold; by right].
  unfold rename_rows. apply list_elem_of_fmap. exists r. split; [|done].
  rewrite bool_decide_false; [done|]. intros Heq. by apply (Hold m); [left|].
Qed.

(** ** The scan over the files table *)

Lemma stored_Some p rows r : stored p rows = Some r → r ∈ rows ∧ path r = p.
Proof.
  unfold stored. intros Hhead. apply head_Some_elem_of in Hhead.
  apply list_elem_of_filter in Hhead. tauto.
Qed.

Lemma stored_None p rows : stored p rows = None ↔ p ∉ path <$> rows.
Proof.
  unfold stored. rewrite head_None. split.
  - intros Hnil (r & -> & Hr)%list_elem_of_fmap.
    by apply (filter_nil_not_elem_of _ _ r) in Hnil.
  - intros Hnot. destruct (filter _ rows) as [|r l] eqn:Hf; [done|].
    assert (Hr : r ∈ filter (λ r, path r = p) rows) by (rewrite Hf; left).
    apply list_elem_of_filter in Hr as [<- Hr]. exfalso. apply Hnot.
    by apply list_elem_of_fmap_2.
Qed.

Lemma stored_app_other p rows r' : path r' ≠ p → stored p (rows ++ [r']) = stored p rows.
Proof.
  intros Hne. unfold stored. rewrite filter_app, filter_cons_False by done.
  by rewrite filter_nil, app_nil_r.
Qed.

Lemma stored_unique rows r : unique_paths rows → r ∈ rows → stored (path r) rows = Some r.
Proof.
  intros Hu Hr. destruct (stored (path r) rows) as [r'|] eqn:Hs.
  - apply stored_Some in Hs as [Hr' Hp]. f_equal. by eapply (NoDup_fmap_eq path).
  - apply stored_None in Hs. exfalso. apply Hs. by apply list_elem_of_fmap_2.
Qed.

(** The three ways [process_file] can go on a working store. *)
Lemma scan_one_cases env rows seq full rel mt :
  (∃ r, stored rel rows = Some r ∧ timestamp r = mt
        ∧ scan_one env rows seq (full, rel, mt)
          = (Some (ScanEntry rel (checksum r) mt), rows, seq, []))
  ∨ ((stored rel rows = None ∨ ∃ r, stored rel rows = Some r ∧ timestamp r ≠ mt)
     ∧ ((∃ data, read_file env full = Some data
                 ∧ scan_one env rows seq (full, rel, mt)
                   = (Some (ScanEntry rel (sha256_hexdigest env data) mt),
                      rows ++ [FileRow (seq + 1) rel (sha256_hexdigest env data) mt],
                      seq + 1, [full]))
        ∨ (read_file env full = None
           ∧ scan_one env rows seq (full, rel, mt) = (None, rows, seq, [full])))).
Proof.
  unfold scan_one. destruct (stored rel rows) as [r|] eqn:Hs.
  - case_bool_decide as Ht.
    + right. split; [right; by exists r|].
      destruct (read_file env full) as [data|]; [left; by exists data|by right].
    + left. exists r. split; [done|]. split; [|done].
      by destruct (decide (timestamp r = mt)).
  - right. split; [by left|].
    destruct (read_file env full) as [data|]; [left; by exists data|by right].
Qed.

Lemma scan_cons env full rel mt tasks rows seq :
  scan env ((full, rel, mt) :: tasks) rows seq =
    let '(result, rows1, seq1, h1) := scan_one env rows seq (full, rel, mt) in
    let '(results, rows2, seq2, h2) := scan env tasks rows1 seq1 in
    (match result with Some r => r :: results | None => results end, rows2, seq2, h1 ++ h2).
Proof. done. Qed.

(** Splits the first step of a scan recorded in [Hscan] into these ways. *)
Ltac scan_step env rows seq full rel mt Hscan :=
  rewrite scan_cons in Hscan;
  destruct (scan_one_cases env rows seq full rel mt)
    as [(r & Hs & Ht & Hone)|[Hstale [(data' & Hread' & Hone)|[Hread' Hone]]]];
  rewrite Hone in Hscan; clear Hone.

(** A path whose listed file cannot be processed (its row carries another
    modification time, and the file cannot be read) is absent from the
    entries of the scan. *)
Lemma scan_skips env p tasks : ∀ rows seq cur rows' seq' hs,
  (∀ full mt, (full, p, mt) ∈ tasks →
     read_file env full = None ∧ ∀ r, stored p rows = Some r → timestamp r ≠ mt) →
  scan env tasks rows seq = (cur, rows', seq', hs) →
  p ∉ se_path <$> cur.
Proof.
  induction tasks as [|[[full rel] mt] tasks IH]; intros rows seq cur rows' seq' hs Hfail Hscan.
  - injection Hscan as <- _ _ _. apply not_elem_of_nil.
  - assert (Htail : ∀ full0 mt0, (full0, p, mt0) ∈ tasks →
              read_file env full0 = None ∧ ∀ r, stored p rows = Some r → timestamp r ≠ mt0).
    { intros full0 mt0 Hin. apply Hfail. by right. }
    scan_step env rows seq full rel mt Hscan.
    + destruct (scan env tasks rows seq) as [[[rs rows2] seq2] h2] eqn:Hrest.
      injection Hscan as <- _ _ _. rewrite fmap_cons, not_elem_of_cons. split.
      * simpl. intros ->. destruct (Hfail full mt) as [_ Hts]; [left|]. by apply (Hts r).
      * by eapply IH.
    + destruct (scan env tasks _ (seq + 1)) as [[[rs rows2] seq2] h2] eqn:Hrest.
      injection Hscan as <- _ _ _.
      assert (Hne : p ≠ rel).
      { intros ->. destruct (Hfail full mt) as [Hnone _]; [left|]. congruence. }
      rewrite fmap_cons, not_elem_of_cons. split; [done|].
      eapply IH; [|exact Hrest]. intros full0 mt0 Hin.
      rewrite stored_app_other by done. by apply Htail.
    + destruct (scan env tasks rows seq) as [[[rs rows2] seq2] h2] eqn:Hrest.
      injection Hscan as <- _ _ _. by eapply IH.
Qed.

(** The scan only appends rows, and only for listed paths. *)
Lemma scan_appends env tasks : ∀ rows seq cur rows' seq' hs,
  scan env tasks rows seq = (cur, rows', seq', hs) →
  ∃ added, rows' = rows ++ added
    ∧ Forall (λ a, ∃ full, (full, path a, timestamp a) ∈ tasks) added.
Proof.
  induction tasks as [|[[full rel] mt] tasks IH]; intros rows seq cur rows' seq' hs Hscan.
  - injection Hscan as _ <- _ _. exists []. by rewrite app_nil_r.
  - scan_step env rows seq full rel mt Hscan.
    + destruct (scan env tasks rows seq) as [[[rs rows2] seq2] h2] eqn:Hrest.
      injection Hscan as _ <- _ _. destruct (IH _ _ _ _ _ _ Hrest) as (added & -> & Hadd).
      exists added. split; [done|]. eapply Forall_impl; [exact Hadd|].
      intros a (full0 & Hin). exists full0. by right.
    + destruct (scan env tasks _ (seq + 1)) as [[[rs rows2] seq2] h2] eqn:Hrest.
      injection Hscan as _ <- _ _. destruct (IH _ _ _ _ _ _ Hrest) as (added & -> & Hadd).
      eexists (_ :: added). rewrite <- app_assoc. split; [done|]. constructor.
      * exists full. left.
      * eapply Forall_impl; [exact Hadd|]. intros a (full0 & Hin). exists full0. by right.
    + destruct (scan env tasks rows seq) as [[[rs rows2] seq2] h2] eqn:Hrest.
      injection Hscan as _ <- _ _. destruct (IH _ _ _ _ _ _ Hrest) as (added & -> & Hadd).
      exists added. split; [done|]. eapply Forall_impl; [exact Hadd|].
      intros a (full0 & Hin). exists full0. by right.
Qed.


(** ** Files that fail during processing *)

(** C9. When a recorded path is listed by the walk but its processing fails
    (the row carries another modification time and the file cannot be read),
    the scan returns no entry for it, the pass classifies the path as
    deleted, and no row with that path is left in the files table. *)
Theorem failed_file_is_taken_for_deleted (env : environment) (n : node)
    (rows : list file_row) (seq : Z) (al : option (list album_row)) (aseq : Z)
    (h : list string) (p : string) :
  tree env = Some n → p ∈ path <$> rows →
  (∀ full mt, (full, p, mt) ∈ file_tasks env n →
     read_file env full = None ∧ ∀ r, stored p rows = Some r → timestamp r ≠ mt) →
  let w := World (Database (Some rows) seq al aseq) [] h in
  ∃ cur w1 new moved deleted alerts w' rows',
    get_file_list env n w = (Ok cur, w1) ∧ (p ∉ se_path <$> cur)
    ∧ main env w = (Ok (Completed new moved deleted alerts), w')
    ∧ p ∈ deleted
    ∧ files (db w') = Some rows' ∧ (p ∉ path <$> rows').
Proof.
  intros Hn Hp Hfail w. subst w.
  assert (Hrows : rows ≠ []) by (intros ->; by apply elem_of_nil in Hp).
  pose proof (main_later_pass env n rows seq al aseq h Hn Hrows) as Hmain.
  pose proof (process_tasks_run env (file_tasks env n) rows seq al aseq h) as Hscan.
  cbv zeta in Hmain.
  destruct (scan env (file_tasks env n) rows seq) as [[[cur rows1] seq1] hs] eqn:Hs.
  pose proof (scan_skips env p _ _ _ _ _ _ _ Hfail Hs) as Hskip.
  assert (Hdel : p ∈ deleted_files cur (prior_of rows)).
  { apply elem_of_deleted_files. split; [by apply prior_of_keys|done]. }
  eexists cur, _, _, _, _, _, _, _. split; [exact Hscan|]. split; [done|].
  split; [exact Hmain|]. split; [exact Hdel|]. split; [reflexivity|].
  rewrite apply_deletes_filter. intros (r & -> & Hr)%list_elem_of_fmap.
  by apply list_elem_of_filter in Hr as [Hnot _].
Qed.

Lemma failed_file_is_taken_for_deleted_sample :
  let n := Dir "photos" [Dir "A" [File "1.jpg" 11]; File "top.jpg" 5] in
  let w := World Sample.store_a1 [] [] in
  tree Sample.unreadable_a1 = Some n
  ∧ file_tasks Sample.unreadable_a1 n
    = [("/photos/top.jpg", "top.jpg", 5); ("/photos/A/1.jpg", "A/1.jpg", 11)]
  ∧ ∃ cur w1 new moved deleted alerts w' rows',
      get_file_list Sample.unreadable_a1 n w = (Ok cur, w1) ∧ ("A/1.jpg" ∉ se_path <$> cur)
      ∧ main Sample.unreadable_a1 w = (Ok (Completed new moved deleted alerts), w')
      ∧ "A/1.jpg" ∈ deleted
      ∧ files (db w') = Some rows' ∧ ("A/1.jpg" ∉ path <$> rows').
Proof.
  split; [reflexivity|]. split; [reflexivity|].
  apply (failed_file_is_taken_for_deleted Sample.unreadable_a1
           (Dir "photos" [Dir "A" [File "1.jpg" 11]; File "top.jpg" 5])
           [FileRow 1 "A/1.jpg" "sha:one" 10] 1 (Some [AlbumRow 1 "A" 1]) 1 [] "A/1.jpg").
  - reflexivity.
  - left.
  - intros full mt Hin.
    change (file_tasks Sample.unreadable_a1 _)
      with [("/photos/top.jpg", "top.jpg", 5); ("/photos/A/1.jpg", "A/1.jpg", 11)] in Hin.
    apply elem_of_cons in Hin as [Hin|Hin]; [discriminate Hin|].
    apply list_elem_of_singleton in Hin. injection Hin as -> ->.
    split; [reflexivity|]. intros r Hr. injection Hr as <-. discriminate.
Defined.

(** ** Renamed files *)

Lemma elem_of_task_paths full rel mt tasks : (full, rel, mt) ∈ tasks → rel ∈ task_paths tasks.
Proof. intros Hin. unfold task_paths. by apply (list_elem_of_fmap_2 (λ task, task.1.2)) in Hin. Qed.





(** ** The first import *)

Lemma scan_fresh env tasks : ∀ rows seq,
  NoDup (task_paths tasks) → (∀ p, p ∈ task_paths tasks → p ∉ path <$> rows) →
  ∃ added seq',
    scan env tasks rows seq
    = ((λ '(p, c, t), ScanEntry p c t) <$> recorded env tasks, rows ++ added, seq',
       (λ task, task.1.1) <$> tasks)
    ∧ (λ r, (path r, checksum r, timestamp r)) <$> added = recorded env tasks.
Proof.
  induction tasks as [|[[full rel] mt] tasks IH]; intros rows seq Hnd Hfresh.
  - exists [], seq. by rewrite app_nil_r.
  - unfold task_paths in Hnd. rewrite fmap_cons in Hnd. apply NoDup_cons in Hnd as [Hhd Hnd].
    assert (Hrel : rel ∉ path <$> rows) by (apply Hfresh; left).
    rewrite scan_cons. unfold recorded. cbn [omap list_omap].
    destruct (scan_one_cases env rows seq full rel mt)
      as [(r & Hs & Ht & Hone)|[Hstale [(data & Hread & Hone)|[Hread Hone]]]];
      rewrite Hone; clear Hone.
    + apply stored_Some in Hs as [Hr <-]. exfalso. apply Hrel. by apply list_elem_of_fmap_2.
    + destruct (IH (rows ++ [FileRow (seq + 1) rel (sha256_hexdigest env data) mt]) (seq + 1))
        as (added & seq' & Hscan & Hadded); [done| |].
      { intros p Hp. rewrite fmap_app, not_elem_of_app. split.
        - apply Hfresh. by right.
        - simpl. rewrite list_elem_of_singleton. intros ->. by apply Hhd. }
      rewrite Hscan, Hread. simpl. eexists (_ :: added), seq'.
      rewrite <- app_assoc. split; [done|]. rewrite fmap_cons. simpl. by rewrite Hadded.
    + destruct (IH rows seq) as (added & seq' & Hscan & Hadded); [done| |].
      { intros p Hp. apply Hfresh. by right. }
      rewrite Hscan, Hread. simpl. by exists added, seq'.
Qed.







(** ** Running again over an unchanged tree *)

(** Over a table that records the listed files exactly, the scan reads and
    returns: no row is written, no file is hashed. *)
Lemma scan_settled env tasks rows seq :
  unique_paths rows →
  (∀ full rel mt, (full, rel, mt) ∈ tasks → ∃ r, r ∈ rows ∧ path r = rel ∧ timestamp r = mt) →
  ∃ cur, scan env tasks rows seq = (cur, rows, seq, [])
    ∧ se_path <$> cur = task_paths tasks
    ∧ Forall (λ e, ∃ r, r ∈ rows ∧ path r = se_path e ∧ checksum r = se_checksum e) cur.
Proof.
  intros Hu. induction tasks as [|[[full rel] mt] tasks IH]; intros Hrec.
  - by exists [].
  - destruct IH as (cur & Hscan & Hpaths & Hcur).
    { intros full0 rel0 mt0 Hin. apply (Hrec full0). by right. }
    destruct (Hrec full rel mt) as (r & Hr & <- & <-); [left|].
    rewrite scan_cons.
    destruct (scan_one_cases env rows seq full (path r) (timestamp r))
      as [(r' & Hs & Ht & Hone)|[[Hnone|(r' & Hs & Ht)] _]].
    + rewrite Hone, Hscan. rewrite (stored_unique rows r Hu Hr) in Hs. injection Hs as <-.
      eexists. split; [done|]. split; [unfold task_paths; by rewrite !fmap_cons, Hpaths|].
      constructor; [by exists r|done].
    + by rewrite (stored_unique rows r Hu Hr) in Hnone.
    + rewrite (stored_unique rows r Hu Hr) in Hs. by injection Hs as <-.
Qed.

(** C4, as the code has it. Over a files table that records the listed
    files exactly (one row per listed path and no other, each with the listed
    modification time) and holds no fingerprint twice, a pass that meets no
    store error classifies nothing as added, moved or deleted, does not call
    [sendalerts], hashes no file and leaves the files table as it was. *)
Theorem settled_store_is_left_alone (env : environment) (n : node)
    (rows : list file_row) (seq : Z) (al : option (list album_row)) (aseq : Z)
    (h : list string) :
  tree env = Some n → rows ≠ [] → in_sync (file_tasks env n) rows →
  let w := World (Database (Some rows) seq al aseq) [] h in
  ∃ w', main env w = (Ok (Completed [] [] [] None), w')
    ∧ files (db w') = Some rows ∧ files_seq (db w') = seq ∧ hashed w' = h.
Proof.
  intros Hn Hrows (Hu & Hfp & Hlisted & Hrecorded) w. subst w.
  pose proof (main_later_pass env n rows seq al aseq h Hn Hrows) as Hmain. cbv zeta in Hmain.
  destruct (scan_settled env (file_tasks env n) rows seq Hu Hlisted)
    as (cur & Hscan & Hpaths & Hcur).
  rewrite Hscan in Hmain. rewrite Forall_forall in Hcur.
  assert (Hnew : detect_files_new cur (prior_of rows) = []).
  { apply elem_of_nil_inv. intros e (Hne & He)%list_elem_of_filter.
    destruct (Hcur e He) as (r & Hr & Hp & Hc).
    pose proof (prior_of_get_unique rows r Hu Hr) as Hget. rewrite Hp in Hget.
    destruct Hne as [Hkey|Hfp']; [by apply dict_get_Some_keys in Hget|].
    rewrite Hget in Hfp'. simpl in Hfp'. congruence. }
  assert (Hmoved : moved_files cur (prior_of rows) = []).
  { apply elem_of_nil_inv. intros m (e & He & Hget & Hne & _)%elem_of_moved_files.
    destruct (Hcur e He) as (r & Hr & Hp & Hc).
    apply prior_checksums_get in Hget as (v & Hv & Hvc).
    apply prior_of_elem in Hv as (r' & Hr' & Hp' & Hc' & _).
    assert (r' = r) as -> by (eapply (NoDup_fmap_eq checksum); [done..|congruence]).
    congruence. }
  assert (Hdeleted : deleted_files cur (prior_of rows) = []).
  { apply elem_of_nil_inv. intros p [Hkey Hcurp]%elem_of_deleted_files.
    apply prior_of_keys, list_elem_of_fmap in Hkey as (r & -> & Hr).
    destruct (Hrecorded r Hr) as (full & mt & Hin).
    apply Hcurp. rewrite Hpaths. by eapply elem_of_task_paths. }
  rewrite Hnew, Hmoved, Hdeleted in Hmain. cbn [apply_moves apply_deletes foldl] in Hmain.
  rewrite app_nil_r in Hmain. eexists. by split; [exact Hmain|].
Qed.

Lemma settled_store_is_left_alone_sample :
  let n := Dir "photos" [Dir "A" [File "1.jpg" 10; File "2.jpg" 20]] in
  main Sample.added_a2 (World Sample.empty_store [] [])
  = (Ok FirstRun, World Sample.store_a1_a2 [] ["/photos/A/1.jpg"; "/photos/A/2.jpg"])
  ∧ ∃ w', main Sample.added_a2
            (World Sample.store_a1_a2 [] ["/photos/A/1.jpg"; "/photos/A/2.jpg"])
          = (Ok (Completed [] [] [] None), w')
      ∧ files (db w') = files Sample.store_a1_a2
      ∧ hashed w' = ["/photos/A/1.jpg"; "/photos/A/2.jpg"].
Proof.
  split; [reflexivity|].
  destruct (settled_store_is_left_alone Sample.added_a2
              (Dir "photos" [Dir "A" [File "1.jpg" 10; File "2.jpg" 20]])
              [FileRow 1 "A/1.jpg" "sha:one" 10; FileRow 2 "A/2.jpg" "sha:two" 20] 2
              (Some [AlbumRow 1 "A" 1]) 1 ["/photos/A/1.jpg"; "/photos/A/2.jpg"])
    as (w' & Hmain & Hfiles & _ & Hhashed).
  - reflexivity.
  - intros Hnil. discriminate Hnil.
  - change (file_tasks Sample.added_a2 _)
      with [("/photos/A/1.jpg", "A/1.jpg", 10); ("/photos/A/2.jpg", "A/2.jpg", 20)].
    split; [|split; [|split]].
    + apply NoDup_cons. split; [|apply NoDup_singleton].
      intros Hin. apply list_elem_of_singleton in Hin. discriminate Hin.
    + apply NoDup_cons. split; [|apply NoDup_singleton].
      intros Hin. apply list_elem_of_singleton in Hin. discriminate Hin.
    + intros full rel mt Hin. apply elem_of_cons in Hin as [Hin|Hin].
      * injection Hin as -> -> ->. eexists. split; [left|]. by split.
      * apply list_elem_of_singleton in Hin. injection Hin as -> -> ->.
        eexists. split; [right; left|]. by split.
    + intros r Hr. apply elem_of_cons in Hr as [->|Hr].
      * exists "/photos/A/1.jpg", 10. left.
      * apply list_elem_of_singleton in Hr as ->. exists "/photos/A/2.jpg", 20. right. left.
  - by exists w'.
Defined.

(** C4 as stated fails: two files with the same bytes. The first import
    records both; the second run over the unchanged tree reports one of them
    as moved onto the other and rewrites its row. *)
Lemma second_run_moves_a_twin :
  let w1 := (main Sample.twins (World Sample.empty_store [] [])).2 in
  files (db w1)
  = Some [FileRow 1 "A/1.jpg" "sha:one" 10; FileRow 2 "A/copy.jpg" "sha:one" 12]
  ∧ (main Sample.twins w1).1 = Ok (Completed [] [MovedFile "A/copy.jpg" "A/1.jpg"] [] None)
  ∧ files (db (main Sample.twins w1).2)
    = Some [FileRow 1 "A/1.jpg" "sha:one" 10; FileRow 2 "A/1.jpg" "sha:one" 12].
Proof. vm_compute. repeat split; reflexivity. Qed.

Lemma recorded_paths env tasks p :
  p ∈ (λ x : string * string * Z, x.1.1) <$> recorded env tasks → p ∈ task_paths tasks.
Proof.
  intros (x & -> & Hx)%list_elem_of_fmap.
  apply list_elem_of_omap in Hx as ([[full rel] mt] & Hin & Hsome).
  destruct (read_file env full) as [data|]; [|done]. injection Hsome as <-.
  by eapply elem_of_task_paths.
Qed.

Lemma recorded_paths_NoDup env tasks :
  NoDup (task_paths tasks) → NoDup ((λ x : string * string * Z, x.1.1) <$> recorded env tasks).
Proof.
  unfold task_paths. induction tasks as [|[[full rel] mt] tasks IH]; [done|].
  rewrite fmap_cons. intros [Hhd Hnd]%NoDup_cons. unfold recorded. cbn [omap list_omap].
  destruct (read_file env full) as [data|]; simpl; [|by apply IH].
  apply NoDup_cons. split; [|by apply IH]. intros Hin. by apply Hhd, (recorded_paths env).
Qed.

(** The first import of a tree whose files can all be read and differ in
    their digests leaves such a files table, so that the next run over the
    unchanged tree is a pass as above. *)
Lemma first_import_settles (env : environment) (n : node)
    (fs : option (list file_row)) (seq : Z) (al : option (list album_row)) (aseq : Z)
    (h : list string) :
  tree env = Some n → default [] fs = [] →
  NoDup (task_paths (file_tasks env n)) →
  (∀ full rel mt, (full, rel, mt) ∈ file_tasks env n → is_Some (read_file env full)) →
  NoDup ((λ x, x.1.2) <$> recorded env (file_tasks env n)) →
  ∃ w' rows', main env (World (Database fs seq al aseq) [] h) = (Ok FirstRun, w')
    ∧ faults w' = [] ∧ files (db w') = Some rows' ∧ in_sync (file_tasks env n) rows'.
Proof.
  intros Hn Hfs Hnd Hreadable Hdigests.
  pose proof (main_first_run env n fs seq al aseq h Hn Hfs) as Hmain. cbv zeta in Hmain.
  destruct (scan_fresh env (file_tasks env n) [] seq Hnd) as (added & seq' & Hscan & Hadded).
  { intros p _. apply not_elem_of_nil. }
  rewrite Hscan in Hmain. simpl in Hmain.
  eexists _, added. split; [exact Hmain|]. split; [done|]. split; [done|].
  assert (Hpaths : path <$> added
            = (λ x : string * string * Z, x.1.1) <$> recorded env (file_tasks env n))
    by (by rewrite <- Hadded, <- list_fmap_compose).
  assert (Hsums : checksum <$> added
            = (λ x : string * string * Z, x.1.2) <$> recorded env (file_tasks env n))
    by (by rewrite <- Hadded, <- list_fmap_compose).
  split; [|split; [|split]].
  - unfold unique_paths. rewrite Hpaths. by apply recorded_paths_NoDup.
  - by rewrite Hsums.
  - intros full rel mt Hin. destruct (Hreadable _ _ _ Hin) as [data Hread].
    assert (Hrec : (rel, sha256_hexdigest env data, mt) ∈ recorded env (file_tasks env n)).
    { apply list_elem_of_omap. exists (full, rel, mt). split; [done|]. by rewrite Hread. }
    rewrite <- Hadded in Hrec. apply list_elem_of_fmap in Hrec as (r & [= -> _ ->] & Hr).
    by exists r.
  - intros r Hr.
    assert (Hrec : (path r, checksum r, timestamp r) ∈ recorded env (file_tasks env n)).
    { rewrite <- Hadded. by apply (list_elem_of_fmap_2 (λ r, (path r, checksum r, timestamp r))). }
    apply list_elem_of_omap in Hrec as ([[full rel] mt] & Hin & Hsome).
    destruct (read_file env full) as [data|]; [|done]. injection Hsome as -> _ _.
    by exists full, mt.
Qed.

(** * Further properties of the code *)

(** ** What a scan leaves in the files table *)

Lemma stored_app_keep p rows more r : stored p rows = Some r → stored p (rows ++ more) = Some r.
Proof.
  unfold stored. rewrite filter_app. by destruct (filter _ rows) as [|r' l].
Qed.

Lemma scan_backed env tasks : ∀ rows seq cur rows2 seq' hs,
  scan env tasks rows seq = (cur, rows2, seq', hs) →
  ∃ added, rows2 = rows ++ added
    ∧ Forall (λ e, ∃ r, r ∈ rows2 ∧ path r = se_path e ∧ checksum r = se_checksum e
                        ∧ timestamp r = se_timestamp e) cur
    ∧ Forall (λ a, ScanEntry (path a) (checksum a) (timestamp a) ∈ cur) added.
Proof.
  induction tasks as [|[[full rel] mt] tasks IH]; intros rows seq cur rows2 seq' hs Hscan.
  - injection Hscan as <- <- _ _. exists []. by rewrite app_nil_r.
  - scan_step env rows seq full rel mt Hscan.
    + destruct (scan env tasks rows seq) as [[[rs rows3] seq3] h3] eqn:Hrest.
      injection Hscan as <- <- _ _.
      destruct (IH _ _ _ _ _ _ Hrest) as (added & -> & Hcur & Hadded).
      apply stored_Some in Hs as [Hr Hp]. exists added. split; [done|]. split.
      * constructor; [|done]. exists r. rewrite elem_of_app. naive_solver.
      * eapply Forall_impl; [exact Hadded|]. intros a Ha. by right.
    + destruct (scan env tasks _ (seq + 1)) as [[[rs rows3] seq3] h3] eqn:Hrest.
      injection Hscan as <- <- _ _.
      destruct (IH _ _ _ _ _ _ Hrest) as (added & -> & Hcur & Hadded).
      exists (FileRow (seq + 1) rel (sha256_hexdigest env data') mt :: added).
      rewrite <- app_assoc in *. split; [done|]. split.
      * constructor; [|done].
        exists (FileRow (seq + 1) rel (sha256_hexdigest env data') mt). split; [|done].
        rewrite !elem_of_app, list_elem_of_singleton. tauto.
      * constructor; [left|]. eapply Forall_impl; [exact Hadded|]. intros a Ha. by right.
    + destruct (scan env tasks rows seq) as [[[rs rows3] seq3] h3] eqn:Hrest.
      injection Hscan as <- <- _ _. by apply IH in Hrest.
Qed.

(** X1. On a working store [get_file_list] only appends to the files table,
    one row for each entry it hashed, and every entry it returns is backed
    by a row with the same path, fingerprint and modification time; the
    albums table is not touched. *)
Theorem scan_entries_are_recorded (env : environment) (n : node)
    (rows : list file_row) (seq : Z) (al : option (list album_row)) (aseq : Z)
    (h : list string) :
  ∃ cur added seq' hs,
    get_file_list env n (World (Database (Some rows) seq al aseq) [] h)
    = (Ok cur, World (Database (Some (rows ++ added)) seq' al aseq) [] (h ++ hs))
    ∧ Forall (λ e, ∃ r, r ∈ rows ++ added ∧ path r = se_path e
                        ∧ checksum r = se_checksum e ∧ timestamp r = se_timestamp e) cur
    ∧ Forall (λ a, ScanEntry (path a) (checksum a) (timestamp a) ∈ cur) added.
Proof.
  unfold get_file_list. rewrite process_tasks_run.
  destruct (scan env (file_tasks env n) rows seq) as [[[cur rows2] seq'] hs] eqn:Hscan.
  destruct (scan_backed _ _ _ _ _ _ _ _ Hscan) as (added & -> & Hcur & Hadded).
  by exists cur, added, seq', hs.
Qed.

(** A listed file whose path has a row with another modification time in
    front: it is hashed, a row is appended for it when it can be read, and
    the row in front stays where it is. *)
Lemma scan_stale env full rel mt front tasks : ∀ rows seq cur rows2 seq' hs,
  stored rel rows = Some front → timestamp front ≠ mt → (full, rel, mt) ∈ tasks →
  scan env tasks rows seq = (cur, rows2, seq', hs) →
  ∃ added, rows2 = rows ++ added ∧ full ∈ hs
    ∧ ∀ data, read_file env full = Some data →
        ScanEntry rel (sha256_hexdigest env data) mt ∈ cur
        ∧ ∃ id, FileRow id rel (sha256_hexdigest env data) mt ∈ added.
Proof.
  induction tasks as [|[[full0 rel0] mt0] tasks IH];
    intros rows seq cur rows2 seq' hs Hfront Hstale0 Hin Hscan;
    [by apply elem_of_nil in Hin|].
  scan_step env rows seq full0 rel0 mt0 Hscan.
  - destruct (scan env tasks rows seq) as [[[rs rows3] seq3] h3] eqn:Hrest.
    injection Hscan as <- <- _ <-.
    apply elem_of_cons in Hin as [[= <- <- <-]|Hin]; [congruence|].
    destruct (IH _ _ _ _ _ _ Hfront Hstale0 Hin Hrest) as (added & -> & Hh & Hdata).
    exists added. split; [done|]. split; [done|]. intros data Hread.
    destruct (Hdata data Hread) as [He Hrow]. split; [by right|done].
  - destruct (scan env tasks _ (seq + 1)) as [[[rs rows3] seq3] h3] eqn:Hrest.
    injection Hscan as <- <- _ <-.
    destruct (scan_appends _ _ _ _ _ _ _ _ Hrest) as (added & Hrows3 & _).
    exists (FileRow (seq + 1) rel0 (sha256_hexdigest env data') mt0 :: added).
    split; [by rewrite Hrows3, <- app_assoc|].
    apply elem_of_cons in Hin as [[= <- <- <-]|Hin].
    + split; [left|]. intros data Hread.
      assert (data = data') as -> by congruence. split; [left|]. eexists. left.
    + destruct (IH _ _ _ _ _ _ (stored_app_keep _ _ _ _ Hfront) Hstale0 Hin Hrest)
        as (added' & Heq & Hh & Hdata).
      assert (added' = added) as -> by (rewrite Hrows3 in Heq; by apply app_inv_head in Heq).
      split; [by right|]. intros data Hread.
      destruct (Hdata data Hread) as [He (id & Hrow)]. split; [by right|].
      exists id. by right.
  - destruct (scan env tasks rows seq) as [[[rs rows3] seq3] h3] eqn:Hrest.
    injection Hscan as <- <- _ <-.
    apply elem_of_cons in Hin as [[= <- <- <-]|Hin].
    + destruct (scan_appends _ _ _ _ _ _ _ _ Hrest) as (added & -> & _).
      exists added. split; [done|]. split; [left|]. intros data Hread. congruence.
    + destruct (IH _ _ _ _ _ _ Hfront Hstale0 Hin Hrest) as (added & -> & Hh & Hdata).
      exists added. split; [done|]. split; [by right|]. done.
Qed.

(** X2. [process_file] consults the first row of a path and never changes
    it: once that row carries another modification time than the file, every
    scan hashes the file again, appends one more row for it when it can be
    read, and finds the same row in front afterwards. *)
Theorem stale_row_is_hashed_by_every_scan (env : environment) (n : node)
    (rows : list file_row) (seq : Z) (al : option (list album_row)) (aseq : Z)
    (h : list string) (full rel : string) (mt : Z) (r : file_row) :
  stored rel rows = Some r → timestamp r ≠ mt → (full, rel, mt) ∈ file_tasks env n →
  ∃ cur added seq' hs,
    get_file_list env n (World (Database (Some rows) seq al aseq) [] h)
    = (Ok cur, World (Database (Some (rows ++ added)) seq' al aseq) [] (h ++ hs))
    ∧ full ∈ hs
    ∧ stored rel (rows ++ added) = Some r
    ∧ (is_Some (read_file env full) → ∃ a, a ∈ added ∧ path a = rel ∧ timestamp a = mt).
Proof.
  intros Hfront Hstale0 Hin. unfold get_file_list. rewrite process_tasks_run.
  destruct (scan env (file_tasks env n) rows seq) as [[[cur rows2] seq'] hs] eqn:Hscan.
  destruct (scan_stale _ _ _ _ _ _ _ _ _ _ _ _ Hfront Hstale0 Hin Hscan)
    as (added & -> & Hh & Hdata).
  exists cur, added, seq', hs. split; [done|]. split; [done|].
  split; [by apply stored_app_keep|].
  intros [data Hread]. destruct (Hdata data Hread) as [_ (id & Hrow)]. by eexists.
Qed.

Lemma stale_row_is_hashed_by_every_scan_sample :
  let n := Dir "photos" [Dir "A" [File "1.jpg" 11]] in
  let rows := [FileRow 1 "A/1.jpg" "sha:one" 10; FileRow 2 "A/1.jpg" "sha:two" 11] in
  stored "A/1.jpg" rows = Some (FileRow 1 "A/1.jpg" "sha:one" 10)
  ∧ file_tasks Sample.rewritten_a1 n = [("/photos/A/1.jpg", "A/1.jpg", 11)]
  ∧ ∃ cur added seq' hs,
      get_file_list Sample.rewritten_a1 n (World (Database (Some rows) 2 None 0) [] [])
      = (Ok cur, World (Database (Some (rows ++ added)) seq' None 0) [] ([] ++ hs))
      ∧ "/photos/A/1.jpg" ∈ hs
      ∧ stored "A/1.jpg" (rows ++ added) = Some (FileRow 1 "A/1.jpg" "sha:one" 10)
      ∧ (is_Some (read_file Sample.rewritten_a1 "/photos/A/1.jpg") →
         ∃ a, a ∈ added ∧ path a = "A/1.jpg" ∧ timestamp a = 11).
Proof.
  split; [reflexivity|]. split; [reflexivity|].
  apply (stale_row_is_hashed_by_every_scan Sample.rewritten_a1
           (Dir "photos" [Dir "A" [File "1.jpg" 11]])
           [FileRow 1 "A/1.jpg" "sha:one" 10; FileRow 2 "A/1.jpg" "sha:two" 11] 2 None 0 []
           "/photos/A/1.jpg" "A/1.jpg" 11 (FileRow 1 "A/1.jpg" "sha:one" 10)).
  - reflexivity.
  - discriminate.
  - left.
Defined.

(** ** What a pass classifies *)

(** X3. A recorded file rewritten in place (new modification time, bytes
    with a fingerprint other than the recorded one) is classified as added,
    [sendalerts] is called, and the path is not in the Deleted list; the row
    with the new fingerprint is in the files table afterwards unless the
    rename of a detected move took the rows of that path away. *)
Theorem rewritten_file_is_added (env : environment) (n : node)
    (rows : list file_row) (seq : Z) (al : option (list album_row)) (aseq : Z)
    (h : list string) (full p : string) (mt : Z) (data : list Byte.byte)
    (front : file_row) (v : prior_record) :
  tree env = Some n →
  (full, p, mt) ∈ file_tasks env n → read_file env full = Some data →
  stored p rows = Some front → timestamp front ≠ mt →
  dict_get p (prior_of rows) = Some v → pr_checksum v ≠ sha256_hexdigest env data →
  ∃ added moved deleted w' rows',
    main env (World (Database (Some rows) seq al aseq) [] h)
    = (Ok (Completed added moved deleted (Some (get_album_photo_counts added))), w')
    ∧ ScanEntry p (sha256_hexdigest env data) mt ∈ added
    ∧ (p ∉ deleted)
    ∧ files (db w') = Some rows'
    ∧ ((∀ m, m ∈ moved → old_path m ≠ p) →
       ∃ id, FileRow id p (sha256_hexdigest env data) mt ∈ rows').
Proof.
  intros Hn Htask Hread Hfront Hstale0 Hprior Hfp.
  assert (Hrows : rows ≠ []) by (intros ->; discriminate Hfront).
  pose proof (main_later_pass env n rows seq al aseq h Hn Hrows) as Hmain. cbv zeta in Hmain.
  destruct (scan env (file_tasks env n) rows seq) as [[[cur rows1] seq1] hs] eqn:Hs.
  destruct (scan_stale _ _ _ _ _ _ _ _ _ _ _ _ Hfront Hstale0 Htask Hs)
    as (added & -> & _ & Hdata).
  destruct (Hdata data Hread) as [Hentry (id & Hrow)].
  assert (Hnew : ScanEntry p (sha256_hexdigest env data) mt
                 ∈ detect_files_new cur (prior_of rows)).
  { unfold detect_files_new. apply list_elem_of_filter. split; [|done].
    right. simpl. rewrite Hprior. simpl. congruence. }
  destruct (detect_files_new cur (prior_of rows)) as [|e0 new] eqn:Hnews;
    [by apply elem_of_nil in Hnew|].
  eexists _, _, _, _, _. split; [exact Hmain|]. split; [done|]. split; [|split; [done|]].
  - intros [_ Hnot]%elem_of_deleted_files. apply Hnot.
    by apply (list_elem_of_fmap_2 se_path) in Hentry.
  - intros Hkept. exists id. cbn [db files]. rewrite apply_deletes_filter.
    apply list_elem_of_filter. split.
    + simpl. intros [_ Hnot]%elem_of_deleted_files. apply Hnot.
      by apply (list_elem_of_fmap_2 se_path) in Hentry.
    + apply apply_moves_keeps; [rewrite elem_of_app; by right|]. done.
Qed.

Lemma rewritten_file_is_added_sample :
  let n := Dir "photos" [Dir "A" [File "1.jpg" 11]] in
  file_tasks Sample.rewritten_a1 n = [("/photos/A/1.jpg", "A/1.jpg", 11)]
  ∧ ∃ added moved deleted w' rows',
      main Sample.rewritten_a1 (World Sample.store_a1 [] [])
      = (Ok (Completed added moved deleted (Some (get_album_photo_counts added))), w')
      ∧ ScanEntry "A/1.jpg" "sha:two" 11 ∈ added
      ∧ ("A/1.jpg" ∉ deleted)
      ∧ files (db w') = Some rows'
      ∧ ((∀ m, m ∈ moved → old_path m ≠ "A/1.jpg") →
         ∃ id, FileRow id "A/1.jpg" "sha:two" 11 ∈ rows').
Proof.
  split; [reflexivity|].
  apply (rewritten_file_is_added Sample.rewritten_a1 (Dir "photos" [Dir "A" [File "1.jpg" 11]])
           [FileRow 1 "A/1.jpg" "sha:one" 10] 1 (Some [AlbumRow 1 "A" 1]) 1 []
           "/photos/A/1.jpg" "A/1.jpg" 11 (list_byte_of_string "two")
           (FileRow 1 "A/1.jpg" "sha:one" 10) (PriorRecord "sha:one" 10)).
  - reflexivity.
  - left.
  - reflexivity.
  - reflexivity.
  - discriminate.
  - reflexivity.
  - discriminate.
Defined.

Lemma dict_set_keys_NoDup {V} k (v : V) d : NoDup (dict_keys d) → NoDup (dict_keys (dict_set k v d)).
Proof.
  unfold dict_keys. induction d as [|[k0 v0] d IH]; simpl.
  - intros _. apply NoDup_singleton.
  - rewrite NoDup_cons. intros [Hk0 Hnd]. case_bool_decide as Hk.
    + subst k0. simpl. by apply NoDup_cons.
    + simpl. apply NoDup_cons. split; [|by apply IH].
      intros Hin. apply (dict_keys_set k0 k v d) in Hin as [->|Hin]; done.
Qed.

Lemma prior_of_keys_NoDup rows : NoDup (dict_keys (prior_of rows)).
Proof.
  unfold prior_of.
  assert (Hgen : ∀ (l : list (string * string * Z)) (d : list (string * prior_record)),
    NoDup (dict_keys d) →
    NoDup (dict_keys (foldl (λ d '(p, c, t), dict_set p (PriorRecord c t) d) d l))).
  { induction l as [|[[p c] t] l IH]; intros d Hd; simpl; [done|].
    by apply IH, dict_set_keys_NoDup. }
  apply Hgen. unfold dict_keys. simpl. apply NoDup_nil_2.
Qed.

(** X4. The Deleted list of a pass names, once each, exactly the recorded
    paths for which the scan returned no entry, however many rows a path
    has; and a store error aside, no row with such a path is left. *)
Theorem deleted_are_the_unscanned_paths (env : environment) (n : node)
    (rows : list file_row) (seq : Z) (al : option (list album_row)) (aseq : Z)
    (h : list string) :
  tree env = Some n → rows ≠ [] →
  let w := World (Database (Some rows) seq al aseq) [] h in
  ∃ cur w1 added moved deleted alerts w' rows',
    get_file_list env n w = (Ok cur, w1)
    ∧ main env w = (Ok (Completed added moved deleted alerts), w')
    ∧ NoDup deleted
    ∧ (∀ p, p ∈ deleted ↔ p ∈ path <$> rows ∧ p ∉ se_path <$> cur)
    ∧ files (db w') = Some rows'
    ∧ ∀ p, p ∈ deleted → p ∉ path <$> rows'.
Proof.
  intros Hn Hrows w. subst w.
  pose proof (main_later_pass env n rows seq al aseq h Hn Hrows) as Hmain. cbv zeta in Hmain.
  pose proof (process_tasks_run env (file_tasks env n) rows seq al aseq h) as Hscan.
  destruct (scan env (file_tasks env n) rows seq) as [[[cur rows1] seq1] hs] eqn:Hs.
  eexists cur, _, _, _, _, _, _, _. split; [exact Hscan|]. split; [exact Hmain|].
  split; [|split; [|split; [reflexivity|]]].
  - unfold deleted_files. apply NoDup_filter, prior_of_keys_NoDup.
  - intros p. by rewrite elem_of_deleted_files, prior_of_keys.
  - intros p Hp. rewrite apply_deletes_filter.
    intros (r & -> & Hr)%list_elem_of_fmap. by apply list_elem_of_filter in Hr as [Hnot _].
Qed.

Lemma deleted_are_the_unscanned_paths_sample :
  let n := Dir "photos" [Dir "B" [File "1.jpg" 10]] in
  tree Sample.moved_to_b = Some n
  ∧ ∃ cur w1 added moved deleted alerts w' rows',
      get_file_list Sample.moved_to_b n (World Sample.store_a1 [] []) = (Ok cur, w1)
      ∧ main Sample.moved_to_b (World Sample.store_a1 [] [])
        = (Ok (Completed added moved deleted alerts), w')
      ∧ NoDup deleted
      ∧ (∀ p, p ∈ deleted
              ↔ p ∈ path <$> [FileRow 1 "A/1.jpg" "sha:one" 10] ∧ p ∉ se_path <$> cur)
      ∧ files (db w') = Some rows'
      ∧ ∀ p, p ∈ deleted → p ∉ path <$> rows'.
Proof.
  split; [reflexivity|].
  apply (deleted_are_the_unscanned_paths Sample.moved_to_b
           (Dir "photos" [Dir "B" [File "1.jpg" 10]])
           [FileRow 1 "A/1.jpg" "sha:one" 10] 1 (Some [AlbumRow 1 "A" 1]) 1 []);
    [reflexivity|discriminate].
Defined.

Lemma apply_moves_paths moved : ∀ rows p,
  p ∈ path <$> apply_moves moved rows → p ∈ path <$> rows ∨ p ∈ new_path <$> moved.
Proof.
  unfold apply_moves. induction moved as [|m moved IH]; intros rows p Hp; [by left|].
  cbn [foldl] in Hp. apply IH in Hp as [Hp|Hp].
  - apply rename_rows_paths in Hp as [->|Hp]; [right; left|by left].
  - right. by right.
Qed.

(** X5. After a pass that meets no store error the files table holds rows
    only for paths of entries the scan returned: nothing recorded survives
    that was not seen in this run. *)
Theorem pass_keeps_only_scanned_paths (env : environment) (n : node)
    (rows : list file_row) (seq : Z) (al : option (list album_row)) (aseq : Z)
    (h : list string) :
  tree env = Some n → rows ≠ [] →
  let w := World (Database (Some rows) seq al aseq) [] h in
  ∃ cur w1 o w' rows',
    get_file_list env n w = (Ok cur, w1)
    ∧ main env w = (Ok o, w')
    ∧ files (db w') = Some rows'
    ∧ ∀ p, p ∈ path <$> rows' → p ∈ se_path <$> cur.
Proof.
  intros Hn Hrows w. subst w.
  pose proof (main_later_pass env n rows seq al aseq h Hn Hrows) as Hmain. cbv zeta in Hmain.
  pose proof (process_tasks_run env (file_tasks env n) rows seq al aseq h) as Hscan.
  destruct (scan env (file_tasks env n) rows seq) as [[[cur rows1] seq1] hs] eqn:Hs.
  destruct (scan_backed _ _ _ _ _ _ _ _ Hs) as (added & -> & _ & Hadded).
  eexists cur, _, _, _, _. split; [exact Hscan|]. split; [exact Hmain|].
  split; [reflexivity|]. intros p. rewrite apply_deletes_filter.
  intros (r & -> & Hr)%list_elem_of_fmap. apply list_elem_of_filter in Hr as [Hkept Hr].
  apply (list_elem_of_fmap_2 path) in Hr. apply apply_moves_paths in Hr as [Hr|Hr].
  - rewrite fmap_app, elem_of_app in Hr. destruct Hr as [Hr|Hr].
    + destruct (decide (path r ∈ se_path <$> cur)) as [|Hnot]; [done|].
      exfalso. apply Hkept, elem_of_deleted_files. by rewrite prior_of_keys.
    + apply list_elem_of_fmap in Hr as (a & -> & Ha).
      rewrite Forall_forall in Hadded. specialize (Hadded a Ha).
      by apply (list_elem_of_fmap_2 se_path) in Hadded.
  - apply list_elem_of_fmap in Hr as (m & -> & Hm).
    apply elem_of_moved_files in Hm as (e & He & _ & _ & ->). by apply list_elem_of_fmap_2.
Qed.

Lemma pass_keeps_only_scanned_paths_sample :
  let n := Dir "photos" [Dir "A" [File "1.jpg" 11]; File "top.jpg" 5] in
  tree Sample.unreadable_a1 = Some n
  ∧ ∃ cur w1 o w' rows',
      get_file_list Sample.unreadable_a1 n (World Sample.store_a1 [] []) = (Ok cur, w1)
      ∧ main Sample.unreadable_a1 (World Sample.store_a1 [] []) = (Ok o, w')
      ∧ files (db w') = Some rows'
      ∧ ∀ p, p ∈ path <$> rows' → p ∈ se_path <$> cur.
Proof.
  split; [reflexivity|].
  apply (pass_keeps_only_scanned_paths Sample.unreadable_a1
           (Dir "photos" [Dir "A" [File "1.jpg" 11]; File "top.jpg" 5])
           [FileRow 1 "A/1.jpg" "sha:one" 10] 1 (Some [AlbumRow 1 "A" 1]) 1 []);
    [reflexivity|discriminate].
Defined.

(** ** The prior state and the reverse index *)

Lemma prior_fold_get_other (l : list (string * string * Z)) :
  ∀ (d : list (string * prior_record)) k,
  k ∉ l.*1.*1 →
  dict_get k (foldl (λ d '(p, c, t), dict_set p (PriorRecord c t) d) d l) = dict_get k d.
Proof.
  induction l as [|[[p c] t] l IH]; intros d k Hk; simpl; [done|].
  simpl in Hk. apply not_elem_of_cons in Hk as [Hne Hk].
  rewrite IH by done. by apply dict_get_set_ne.
Qed.

Lemma prior_of_last before r after :
  path r ∉ path <$> after →
  dict_get (path r) (prior_of (before ++ r :: after))
  = Some (PriorRecord (checksum r) (timestamp r)).
Proof.
  intros Hafter. unfold prior_of. rewrite fmap_app, foldl_app, fmap_cons. cbn [foldl].
  rewrite prior_fold_get_other; [apply dict_get_set_eq|].
  by rewrite <- !list_fmap_compose.
Qed.

(** X6. When a path has several rows, [process_file] compares the file with
    the first of them and [load_prior_state] hands the last of them to the
    classification. *)
Theorem first_row_is_consulted_last_row_is_prior (before between after : list file_row)
    (first last : file_row) :
  path first = path last →
  path last ∉ path <$> before →
  path last ∉ path <$> after →
  let rows := before ++ first :: between ++ last :: after in
  stored (path last) rows = Some first
  ∧ dict_get (path last) (prior_of rows) = Some (PriorRecord (checksum last) (timestamp last)).
Proof.
  intros Hsame Hbefore Hafter rows. subst rows. split.
  - unfold stored. rewrite filter_app, filter_cons_True by done.
    replace (filter (λ r, path r = path last) before) with (@nil file_row); [done|].
    symmetry. apply elem_of_nil_inv. intros r [Hp Hr]%list_elem_of_filter.
    apply Hbefore. rewrite <- Hp. by apply list_elem_of_fmap_2.
  - replace (before ++ first :: between ++ last :: after)
      with ((before ++ first :: between) ++ last :: after) by (by rewrite <- app_assoc).
    by apply prior_of_last.
Qed.

Lemma first_row_is_consulted_last_row_is_prior_sample :
  let rows := [FileRow 1 "A/1.jpg" "sha:one" 10; FileRow 2 "A/1.jpg" "sha:two" 11] in
  stored "A/1.jpg" rows = Some (FileRow 1 "A/1.jpg" "sha:one" 10)
  ∧ dict_get "A/1.jpg" (prior_of rows) = Some (PriorRecord "sha:two" 11).
Proof.
  apply (first_row_is_consulted_last_row_is_prior [] [] []
           (FileRow 1 "A/1.jpg" "sha:one" 10) (FileRow 2 "A/1.jpg" "sha:two" 11)).
  - reflexivity.
  - apply not_elem_of_nil.
  - apply not_elem_of_nil.
Defined.

Lemma index_fold_get_other (l : list (string * prior_record)) :
  ∀ (d : list (string * string)) c,
  c ∉ (λ kv, pr_checksum kv.2) <$> l →
  dict_get c (foldl (λ d '(k, v), dict_set (pr_checksum v) k d) d l) = dict_get c d.
Proof.
  induction l as [|[k v] l IH]; intros d c Hc; simpl; [done|].
  rewrite fmap_cons in Hc. apply not_elem_of_cons in Hc as [Hne Hc].
  rewrite IH by done. by apply dict_get_set_ne.
Qed.

(** X7. The tie-break of the move mode: of several prior paths with the same
    fingerprint the last one is indexed, and every current entry with that
    fingerprint at another path is reported as moved from it. *)
Theorem last_prior_path_is_the_origin (cur : list scan_entry)
    (before after : list (string * prior_record)) (origin : string) (v : prior_record)
    (e : scan_entry) :
  pr_checksum v ∉ (λ kv, pr_checksum kv.2) <$> after →
  e ∈ cur → se_checksum e = pr_checksum v → se_path e ≠ origin →
  let prior := before ++ (origin, v) :: after in
  dict_get (pr_checksum v) (prior_checksums prior) = Some origin
  ∧ MovedFile origin (se_path e) ∈ moved_files cur prior.
Proof.
  intros Hafter He Hsum Hpath prior. subst prior.
  assert (Hindex : dict_get (pr_checksum v) (prior_checksums (before ++ (origin, v) :: after))
                   = Some origin).
  { unfold prior_checksums. rewrite foldl_app. cbn [foldl].
    rewrite index_fold_get_other by done. apply dict_get_set_eq. }
  split; [done|]. apply elem_of_moved_files. exists e. simpl. rewrite Hsum.
  split; [done|]. split; [done|]. split; [congruence|done].
Qed.

Lemma last_prior_path_is_the_origin_sample :
  let prior := [("A/1.jpg", PriorRecord "sha:one" 10); ("A/copy.jpg", PriorRecord "sha:one" 12)] in
  let cur := [ScanEntry "B/1.jpg" "sha:one" 10] in
  dict_get "sha:one" (prior_checksums prior) = Some "A/copy.jpg"
  ∧ MovedFile "A/copy.jpg" "B/1.jpg" ∈ moved_files cur prior.
Proof.
  apply (last_prior_path_is_the_origin [ScanEntry "B/1.jpg" "sha:one" 10]
           [("A/1.jpg", PriorRecord "sha:one" 10)] [] "A/copy.jpg" (PriorRecord "sha:one" 12)
           (ScanEntry "B/1.jpg" "sha:one" 10)).
  - apply not_elem_of_nil.
  - left.
  - reflexivity.
  - discriminate.
Defined.

(** X8. The move mode reports an entry only when its fingerprint is that of
    a recorded row at another path: the origin is the path of such a row,
    the destination the path of the entry, and the two differ. *)
Theorem moved_entries_have_a_recorded_origin (cur : list scan_entry) (rows : list file_row)
    (seq : Z) (al : option (list album_row)) (aseq : Z) (h : list string) :
  ∃ moved w',
    detect_files_move cur (prior_of rows) (World (Database (Some rows) seq al aseq) [] h)
    = (Ok moved, w')
    ∧ Forall (λ m, old_path m ≠ new_path m
                   ∧ ∃ e r, e ∈ cur ∧ r ∈ rows ∧ new_path m = se_path e
                            ∧ old_path m = path r ∧ checksum r = se_checksum e) moved.
Proof.
  eexists _, _. split; [apply detect_files_move_run|].
  apply Forall_forall. intros m (e & He & Hget & Hne & Hnew)%elem_of_moved_files.
  split; [congruence|].
  apply prior_checksums_get in Hget as (v & Hv & Hc).
  apply prior_of_elem in Hv as (r & Hr & Hp & Hcr & _).
  exists e, r. repeat split; [done..|congruence].
Qed.

(** ** Counting the new photos *)

Local Abbreviation count_step :=
  (λ (counts : list (string * Z)) (current_file : scan_entry),
     dict_set (album_name_of (se_path current_file))
       (default 0 (dict_get (album_name_of (se_path current_file)) counts) + 1) counts).

Lemma photo_counts_fold (entries : list scan_entry) : ∀ (d : list (string * Z)),
  NoDup (dict_keys d) →
  NoDup (dict_keys (foldl count_step d entries))
  ∧ (∀ a, a ∈ dict_keys (foldl count_step d entries)
          ↔ a ∈ dict_keys d ∨ ∃ e, e ∈ entries ∧ album_name_of (se_path e) = a)
  ∧ (∀ a, default 0 (dict_get a (foldl count_step d entries))
          = default 0 (dict_get a d)
            + Z.of_nat (length (filter (λ e, album_name_of (se_path e) = a) entries))).
Proof.
  induction entries as [|e entries IH]; intros d Hnd; cbn [foldl].
  - split; [done|]. split; [|intros a; simpl; lia]. intros a. split; [by left|].
    intros [?|(e & He & _)]; [done|by apply elem_of_nil in He].
  - destruct (IH (count_step d e)) as (Hnd' & Hkeys & Hcount);
      [by apply dict_set_keys_NoDup|].
    split; [done|]. split.
    + intros a. rewrite Hkeys, dict_keys_set. split.
      * intros [[->|Hd]|(e' & He' & Ha)]; [right; exists e; split; [left|done]|by left|].
        right. exists e'. split; [by right|done].
      * intros [Hd|(e' & [->|He']%elem_of_cons & Ha)]; [left; by right|left; by left|].
        right. by exists e'.
    + intros a. rewrite Hcount, filter_cons.
      destruct (decide (album_name_of (se_path e) = a)) as [<-|Hne].
      * rewrite dict_get_set_eq. simpl. lia.
      * rewrite dict_get_set_ne by done. lia.
Qed.

Lemma dict_set_sum k (z : Z) (d : list (string * Z)) :
  foldr Z.add 0 (dict_set k (default 0 (dict_get k d) + z) d).*2 = foldr Z.add 0 d.*2 + z.
Proof.
  induction d as [|[k0 z0] d IH]; [simpl; lia|].
  cbn [dict_set dict_get]. case_bool_decide as Hk; [simpl; lia|].
  rewrite !fmap_cons. cbn [foldr snd]. rewrite IH. lia.
Qed.

(** X9. [get_album_photo_counts] has one key per album name that occurs
    among the entries, maps it to the number of entries with that album
    name, and the counts add up to the number of entries. *)
Theorem photo_counts_tally_the_entries (entries : list scan_entry) :
  let counts := get_album_photo_counts entries in
  NoDup (dict_keys counts)
  ∧ (∀ a, a ∈ dict_keys counts ↔ ∃ e, e ∈ entries ∧ album_name_of (se_path e) = a)
  ∧ (∀ a, default 0 (dict_get a counts)
          = Z.of_nat (length (filter (λ e, album_name_of (se_path e) = a) entries)))
  ∧ foldr Z.add 0 counts.*2 = Z.of_nat (length entries).
Proof.
  intros counts. subst counts. unfold get_album_photo_counts.
  destruct (photo_counts_fold entries []) as (Hnd & Hkeys & Hcount); [apply NoDup_nil_2|].
  split; [done|]. split; [|split; [done|]].
  - intros a. rewrite Hkeys. unfold dict_keys at 1. simpl. rewrite elem_of_nil. tauto.
  - assert (Hgen : ∀ (l : list scan_entry) (d : list (string * Z)),
      foldr Z.add 0 (foldl count_step d l).*2 = foldr Z.add 0 d.*2 + Z.of_nat (length l)).
    { induction l as [|e l IH]; intros d; cbn [foldl]; [simpl; lia|].
      rewrite IH, dict_set_sum. simpl length. lia. }
    by rewrite Hgen.
Qed.

(** ** Album maintenance under store errors *)

Lemma delete_album_step album_name w :
  ∃ res w', db_execute (SQL.delete_album album_name) w = (res, w')
    ∧ files (db w') = files (db w) ∧ files_seq (db w') = files_seq (db w)
    ∧ albums_seq (db w') = albums_seq (db w) ∧ hashed w' = hashed w
    ∧ (albums (db w) = None → albums (db w') = None)
    ∧ ∀ rows, albums (db w) = Some rows →
        ∃ rows', albums (db w') = Some rows' ∧ (∀ r, r ∈ rows' → r ∈ rows)
          ∧ ∀ r, r ∈ rows → name r ≠ album_name → r ∈ rows'.
Proof.
  destruct w as [[fs fseq [rows|] aseq] [|[] f] h]; unfold db_execute; simpl;
    eexists _, _; (split; [done|]); simpl; repeat split; try done;
    intros rows0 [= <-]; eexists; (split; [done|]); split; try done;
    try (intros r Hr; by apply list_elem_of_filter in Hr as [_ ?]);
    intros r Hr Hne; by apply list_elem_of_filter.
Qed.

Lemma delete_albums_loop names : ∀ w,
  ∃ res w', for_each names (λ album_name, db_execute (SQL.delete_album album_name)) w = (res, w')
    ∧ files (db w') = files (db w) ∧ files_seq (db w') = files_seq (db w)
    ∧ albums_seq (db w') = albums_seq (db w) ∧ hashed w' = hashed w
    ∧ (albums (db w) = None → albums (db w') = None)
    ∧ ∀ rows, albums (db w) = Some rows →
        ∃ rows', albums (db w') = Some rows' ∧ (∀ r, r ∈ rows' → r ∈ rows)
          ∧ ∀ r, r ∈ rows → name r ∉ names → r ∈ rows'.
Proof.
  induction names as [|album_name names IH]; intros w.
  - exists (Ok tt), w. repeat split; try done. intros rows Hrows. by exists rows.
  - cbn [for_each].
    destruct (delete_album_step album_name w)
      as (res & w1 & Hrun & Hf & Hfs & Has & Hh & Hnone & Hsome).
    destruct res as [[]|e].
    + destruct (IH w1) as (res2 & w2 & Hrun2 & Hf2 & Hfs2 & Has2 & Hh2 & Hnone2 & Hsome2).
      exists res2, w2. split; [by erewrite bind_ok|].
      repeat split; try congruence; [by auto|].
      intros rows Hrows. destruct (Hsome rows Hrows) as (rows1 & Hrows1 & Hsub1 & Hkeep1).
      destruct (Hsome2 rows1 Hrows1) as (rows2 & Hrows2 & Hsub2 & Hkeep2).
      exists rows2. split; [done|]. split; [by auto|].
      intros r Hr [Hne Hnot]%not_elem_of_cons. auto.
    + exists (Raise e), w1. split; [by erewrite bind_raise|].
      repeat split; try done. intros rows Hrows.
      destruct (Hsome rows Hrows) as (rows1 & Hrows1 & Hsub1 & Hkeep1).
      exists rows1. split; [done|]. split; [done|].
      intros r Hr [Hne Hnot]%not_elem_of_cons. auto.
Qed.

(** X10. Whatever the store does, [check_removed_albums] returns normally,
    leaves the files table and the hashing log alone, adds no album row,
    and keeps every album row whose name is a grouping key of the entries it
    was given. *)
Theorem check_removed_albums_only_removes_stale_albums (cur : list scan_entry) (w : world) :
  ∃ w', check_removed_albums cur w = (Ok tt, w')
    ∧ files (db w') = files (db w) ∧ files_seq (db w') = files_seq (db w)
    ∧ hashed w' = hashed w
    ∧ (albums (db w) = None → albums (db w') = None)
    ∧ ∀ rows, albums (db w) = Some rows →
        ∃ rows', albums (db w') = Some rows' ∧ (∀ r, r ∈ rows' → r ∈ rows)
          ∧ ∀ r, r ∈ rows → name r ∈ current_keys cur → r ∈ rows'.
Proof.
  unfold check_removed_albums, try_except.
  destruct (db_execute SQL.select_album_names w) as [[db_albums|e] w1] eqn:Hsel.
  - assert (Hw1 : db w1 = db w ∧ hashed w1 = hashed w).
    { revert Hsel. unfold db_execute, SQL.select_album_names, query_albums.
      destruct (faults w) as [|[] f]; destruct (albums (db w)); simpl; by intros [= _ <-]. }
    destruct Hw1 as [Hdb Hh].
    erewrite bind_ok; [|exact Hsel]. cbv beta zeta.
    set (names := elements (_ ∖ _)).
    destruct (delete_albums_loop names w1)
      as (res & w2 & Hrun & Hf & Hfs & Has & Hh2 & Hnone & Hsome).
    rewrite Hrun. rewrite Hdb in *.
    assert (Hgoal : files (db w2) = files (db w) ∧ files_seq (db w2) = files_seq (db w)
      ∧ hashed w2 = hashed w ∧ (albums (db w) = None → albums (db w2) = None)
      ∧ ∀ rows, albums (db w) = Some rows →
          ∃ rows', albums (db w2) = Some rows' ∧ (∀ r, r ∈ rows' → r ∈ rows)
            ∧ ∀ r, r ∈ rows → name r ∈ current_keys cur → r ∈ rows').
    { split; [congruence|]. split; [congruence|]. split; [congruence|]. split; [done|].
      intros rows Hrows.
      destruct (Hsome rows Hrows) as (rows' & Hrows' & Hsub & Hkeep).
      exists rows'. split; [done|]. split; [done|]. intros r Hr Hkey. apply Hkeep; [done|].
      subst names. rewrite elem_of_elements, elem_of_difference, elem_of_list_to_set.
      intros [_ Hnot]. apply Hnot. by apply elem_of_list_to_set. }
    destruct res as [[]|e]; by exists w2.
  - erewrite bind_raise; [|exact Hsel].
    assert (Hw1 : db w1 = db w ∧ hashed w1 = hashed w).
    { revert Hsel. unfold db_execute, SQL.select_album_names, query_albums.
      destruct (faults w) as [|[] f]; destruct (albums (db w)); simpl; by intros [= _ <-]. }
    destruct Hw1 as [Hdb Hh]. exists w1. rewrite Hdb, Hh. repeat split; try done.
    intros rows Hrows. by exists rows.
Qed.

Lemma pruned_albums_idempotent cur al :
  pruned_albums cur (pruned_albums cur al) = pruned_albums cur al.
Proof.
  destruct al as [rows|]; [|done]. rewrite !pruned_albums_filter. f_equal.
  rewrite list_filter_filter. apply list_filter_iff. tauto.
Qed.

(** X11. On a working store album maintenance is idempotent: running
    [check_removed_albums] a second time on the same entries changes
    nothing. *)
Theorem check_removed_albums_is_idempotent (cur : list scan_entry) (d : database)
    (h : list string) :
  (check_removed_albums cur ≫= λ _, check_removed_albums cur) (World d [] h)
  = check_removed_albums cur (World d [] h).
Proof.
  destruct d as [fs fseq al aseq].
  erewrite bind_ok; [|apply check_removed_albums_run].
  by rewrite !check_removed_albums_run, pruned_albums_idempotent.
Qed.

(** ** Store errors outside the scan *)

Lemma initialize_database_total w :
  ∃ w1, initialize_database w = (Ok tt, w1)
    ∧ hashed w1 = hashed w ∧ albums (db w1) = albums (db w)
    ∧ ∀ rows, files (db w) = Some rows → files (db w1) = Some rows.
Proof.
  unfold initialize_database, try_except, db_execute, SQL.create_files.
  destruct w as [[[rows|] fseq al aseq] [|[] f] h]; simpl; eexists; repeat split; done.
Qed.

(** X12. [load_prior_state] is not guarded: when its query fails (the
    database is locked, or the files table could not be created just
    before), the run ends with the [ValueError] there, before anything is
    scanned, hashed or written. *)
Theorem prior_state_failure_aborts (env : environment) (n : node) (w : world) :
  tree env = Some n →
  let w1 := (initialize_database w).2 in
  fails SQL.select_files w1 →
  main env w = (Raise ValueError, rolled_back w1)
  ∧ hashed (rolled_back w1) = hashed w
  ∧ albums (db (rolled_back w1)) = albums (db w)
  ∧ ∀ rows, files (db w) = Some rows → files (db (rolled_back w1)) = Some rows.
Proof.
  intros Hn w1 Hfail. subst w1.
  destruct (initialize_database_total w) as (w1 & Hinit & Hh & Hal & Hfiles).
  rewrite Hinit in *. simpl in *. split; [|by repeat split].
  unfold main. rewrite Hn. erewrite bind_ok; [|exact Hinit].
  erewrite bind_raise; [done|]. unfold load_prior_state.
  erewrite bind_raise; [done|]. by apply db_execute_fails.
Qed.

Lemma prior_state_failure_aborts_sample :
  let w := World Sample.empty_store [true] [] in
  initialize_database w = (Ok tt, World Sample.empty_store [] [])
  ∧ main Sample.added_a2 w = (Raise ValueError, World Sample.empty_store [] []).
Proof.
  split; [reflexivity|].
  refine (proj1 (prior_state_failure_aborts Sample.added_a2
                   (Dir "photos" [Dir "A" [File "1.jpg" 10; File "2.jpg" 20]])
                   (World Sample.empty_store [true] []) eq_refl _)).
  right. reflexivity.
Defined.

Lemma db_execute_scheduled_ok {A} (stmt : statement A) d fs h a d' :
  stmt d = Some (a, d') → db_execute stmt (World d (false :: fs) h) = (Ok a, World d' fs h).
Proof. intros Hs. unfold db_execute. simpl. by rewrite Hs. Qed.

Lemma renames_until_failure (done : list moved_file) : ∀ m rest rows seq al aseq later h,
  for_each (done ++ m :: rest)
    (λ file_entry, db_execute (SQL.update_path (new_path file_entry) (old_path file_entry)))
    (World (Database (Some rows) seq al aseq) (replicate (length done) false ++ true :: later) h)
  = (Raise ValueError, World (Database (Some (apply_moves done rows)) seq al aseq) later h).
Proof.
  induction done as [|m0 done IH]; intros m rest rows seq al aseq later h.
  - simpl. by erewrite bind_raise; [|by apply db_execute_fails; left].
  - simpl. erewrite bind_ok; [apply IH|]. by apply db_execute_scheduled_ok.
Qed.

(** X13. Every [UPDATE] of the move mode is committed on its own: when the
    store fails at one of them, the renames before it stay in the files
    table, the later ones are not attempted, and the [ValueError] leaves
    [detect_files] (nothing in [main] catches it, so no deletion follows). *)
Theorem failed_rename_keeps_the_earlier_ones (cur : list scan_entry)
    (prior : list (string * prior_record)) (done rest : list moved_file) (m : moved_file)
    (rows : list file_row) (seq : Z) (al : option (list album_row)) (aseq : Z)
    (later : list bool) (h : list string) :
  moved_files cur prior = done ++ m :: rest →
  detect_files_move cur prior
    (World (Database (Some rows) seq al aseq) (replicate (length done) false ++ true :: later) h)
  = (Raise ValueError, World (Database (Some (apply_moves done rows)) seq al aseq) later h).
Proof.
  intros Hmoved. unfold detect_files_move. rewrite Hmoved.
  erewrite bind_raise; [done|]. apply renames_until_failure.
Qed.

Lemma failed_rename_keeps_the_earlier_ones_sample :
  let cur := [ScanEntry "B/1.jpg" "sha:one" 10; ScanEntry "B/2.jpg" "sha:two" 20] in
  let prior := [("A/1.jpg", PriorRecord "sha:one" 10); ("A/2.jpg", PriorRecord "sha:two" 20)] in
  let rows := [FileRow 1 "A/1.jpg" "sha:one" 10; FileRow 2 "A/2.jpg" "sha:two" 20] in
  moved_files cur prior = [MovedFile "A/1.jpg" "B/1.jpg"; MovedFile "A/2.jpg" "B/2.jpg"]
  ∧ detect_files_move cur prior (World (Database (Some rows) 2 None 0) [false; true] [])
    = (Raise ValueError,
       World (Database (Some [FileRow 1 "B/1.jpg" "sha:one" 10; FileRow 2 "A/2.jpg" "sha:two" 20])
                2 None 0) [] []).
Proof.
  split; [reflexivity|].
  exact (failed_rename_keeps_the_earlier_ones
           [ScanEntry "B/1.jpg" "sha:one" 10; ScanEntry "B/2.jpg" "sha:two" 20]
           [("A/1.jpg", PriorRecord "sha:one" 10); ("A/2.jpg", PriorRecord "sha:two" 20)]
           [MovedFile "A/1.jpg" "B/1.jpg"] [] (MovedFile "A/2.jpg" "B/2.jpg")
           [FileRow 1 "A/1.jpg" "sha:one" 10; FileRow 2 "A/2.jpg" "sha:two" 20] 2 None 0 [] []
           eq_refl).
Defined.

(** ** Fingerprinting in chunks *)

Lemma update_loop_feeds_all (size : nat) : (0 < size)%nat →
  ∀ fuel remaining fed,
  (length remaining + size ≤ fuel * size)%nat →
  Hashing.update_loop fuel size remaining fed = Some (fed ++ remaining).
Proof.
  intros Hsize. induction fuel as [|fuel IH]; intros remaining fed Hfuel; [simpl in Hfuel; lia|].
  cbn [Hashing.update_loop Hashing.read].
  destruct (take size remaining) as [|b chunk] eqn:Htake.
  - apply take_nil_inv in Htake as [->| ->]; [lia|]. by rewrite app_nil_r.
  - rewrite <- Htake. rewrite IH.
    + by rewrite <- app_assoc, take_drop.
    + rewrite length_drop. assert (length remaining ≠ 0)%nat.
      { intros Hl. apply nil_length_inv in Hl. subst remaining. by rewrite take_nil in Htake. }
      clear IH. destruct fuel as [|fuel]; simpl in *; lia.
Qed.

(** X14. Reading the file in chunks of 8192 bytes feeds the hash object
    exactly the bytes of the file, whatever its length: the loop ends after
    one read per started chunk and one more for the end of the file, and
    the fingerprint is the digest of the whole content. *)
Theorem chunked_reading_hashes_the_whole_file (env : environment) (fuel : nat)
    (data : list Byte.byte) :
  (length data + Hashing.chunk_size ≤ fuel * Hashing.chunk_size)%nat →
  Hashing.streamed_checksum env fuel data = Some (sha256_hexdigest env data).
Proof.
  intros Hfuel. unfold Hashing.streamed_checksum.
  rewrite update_loop_feeds_all; [done| |done]. unfold Hashing.chunk_size. lia.
Qed.

Lemma chunked_reading_hashes_the_whole_file_sample :
  Hashing.streamed_checksum Sample.twins 2 (list_byte_of_string "one") = Some "sha:one".
Proof.
  apply (chunked_reading_hashes_the_whole_file Sample.twins 2 (list_byte_of_string "one")).
  unfold Hashing.chunk_size. simpl length. lia.
Defined.

(** ** Notification *)

Lemma get_album_groups_needs_album al subs album :
  album ∉ name <$> default [] al → Alerts.get_album_groups al subs album = None.
Proof.
  intros Hnot. unfold Alerts.get_album_groups, Alerts.select_group_names.
  destruct al as [arows|]; [|done]. destruct (Alerts.groups subs) as [grows|]; [|done].
  simpl in *.
  replace (flat_map _ arows) with (@nil string); [done|].
  symmetry. apply elem_of_nil_inv. intros g (a & Ha & Hg)%elem_of_flat_map.
  case_bool_decide as Hname; [|by apply elem_of_nil in Hg].
  apply Hnot. rewrite <- Hname. by apply list_elem_of_fmap_2.
Qed.

Lemma sendalerts_needs_album al subs counts album :
  album ∈ dict_keys counts → album ∉ name <$> default [] al →
  Alerts.sendalerts al subs counts = None.
Proof.
  intros Hkey Hnot. unfold Alerts.sendalerts.
  rewrite (proj2 (mapM_None _ _)); [done|].
  apply list_elem_of_fmap in Hkey as ([a c] & -> & Hin).
  apply Exists_exists. exists (a, c). split; [done|]. simpl.
  unfold Alerts.album_members. by rewrite get_album_groups_needs_album.
Qed.

Lemma pruned_albums_names cur al a :
  a ∈ name <$> default [] (pruned_albums cur al) → a ∈ name <$> default [] al.
Proof.
  destruct al as [rows|]; [|done]. rewrite pruned_albums_filter. simpl.
  intros (r & -> & Hr)%list_elem_of_fmap. apply list_elem_of_filter in Hr as [_ Hr].
  by apply list_elem_of_fmap_2.
Qed.

(** X15. A pass never inserts an album, and [sendalerts] iterates over what
    [get_album_groups] returns without testing it: when a file is classified
    as added whose album name has no row in the albums table (a new
    directory), [sendalerts] is called and raises [TypeError] in its first
    loop, so that no message is sent for any album of the run. *)
Theorem new_directory_breaks_notification (env : environment) (n : node)
    (rows : list file_row) (seq : Z) (al : option (list album_row)) (aseq : Z)
    (h : list string) (subs : Alerts.subscribers)
    (added : list scan_entry) (moved : list moved_file) (deleted : list string)
    (alerts : option (list (string * Z))) (w' : world) (e : scan_entry) :
  tree env = Some n → rows ≠ [] →
  main env (World (Database (Some rows) seq al aseq) [] h)
  = (Ok (Completed added moved deleted alerts), w') →
  e ∈ added →
  album_name_of (se_path e) ∉ name <$> default [] al →
  alerts = Some (get_album_photo_counts added)
  ∧ Alerts.sendalerts (albums (db w')) subs (get_album_photo_counts added) = None.
Proof.
  intros Hn Hrows Hmain He Hnot.
  rewrite (main_later_pass env n rows seq al aseq h Hn Hrows) in Hmain. cbv zeta in Hmain.
  destruct (scan env (file_tasks env n) rows seq) as [[[cur rows1] seq1] hs].
  injection Hmain as <- _ _ <- <-.
  destruct (detect_files_new cur (prior_of rows)) as [|e0 new] eqn:Hnews;
    [by apply elem_of_nil in He|].
  split; [done|]. cbn [db albums].
  apply (sendalerts_needs_album _ _ _ (album_name_of (se_path e))).
  - destruct (photo_counts_fold (e0 :: new) []) as (_ & Hkeys & _); [apply NoDup_nil_2|].
    apply Hkeys. right. by exists e.
  - intros Hin. by apply Hnot, (pruned_albums_names cur).
Qed.

Lemma new_directory_breaks_notification_sample :
  let w := World Sample.store_a1 [] [] in
  let added := [ScanEntry "B/1.jpg" "sha:one" 10] in
  let w' := World (Database (Some [FileRow 1 "B/1.jpg" "sha:one" 10;
                                   FileRow 2 "B/1.jpg" "sha:one" 10]) 2 (Some []) 1)
              [] ["/photos/B/1.jpg"] in
  let subs := Alerts.Subscribers (Some [Alerts.GroupRow 1 "family"])
                (Some [Alerts.MemberRow 1 "Ann" "ann@example.org" 1]) in
  main Sample.moved_to_b w
  = (Ok (Completed added [MovedFile "A/1.jpg" "B/1.jpg"] ["A/1.jpg"] (Some [("B", 1)])), w')
  ∧ Alerts.sendalerts (albums (db w')) subs (get_album_photo_counts added) = None.
Proof.
  split; [reflexivity|].
  refine (proj2 (new_directory_breaks_notification Sample.moved_to_b
            (Dir "photos" [Dir "B" [File "1.jpg" 10]])
            [FileRow 1 "A/1.jpg" "sha:one" 10] 1 (Some [AlbumRow 1 "A" 1]) 1 []
            (Alerts.Subscribers (Some [Alerts.GroupRow 1 "family"])
               (Some [Alerts.MemberRow 1 "Ann" "ann@example.org" 1]))
            [ScanEntry "B/1.jpg" "sha:one" 10] [MovedFile "A/1.jpg" "B/1.jpg"] ["A/1.jpg"]
            (Some [("B", 1)]) _ (ScanEntry "B/1.jpg" "sha:one" 10)
            eq_refl _ eq_refl _ _)).
  - discriminate.
  - left.
  - intros Hin. apply list_elem_of_singleton in Hin. discriminate Hin.
Defined.

Lemma elem_of_concat {A} (x : A) (ls : list (list A)) :
  x ∈ concat ls ↔ ∃ l, l ∈ ls ∧ x ∈ l.
Proof.
  induction ls as [|l ls IH]; simpl.
  - rewrite elem_of_nil. split; [done|]. intros (l & Hl & _). by apply elem_of_nil in Hl.
  - rewrite elem_of_app, IH. split.
    + intros [Hx|(l' & Hl' & Hx)]; [exists l; split; [left|done]|].
      exists l'. split; [by right|done].
    + intros (l' & [->|Hl']%elem_of_cons & Hx); [by left|]. right. by exists l'.
Qed.

Lemma Forall2_elem_l {A B} (P : A → B → Prop) l k x :
  Forall2 P l k → x ∈ l → ∃ y, y ∈ k ∧ P x y.
Proof.
  induction 1 as [|x0 y0 l k Hxy _ IH]; intros Hx; [by apply elem_of_nil in Hx|].
  apply elem_of_cons in Hx as [->|Hx]; [exists y0; split; [left|done]|].
  destruct (IH Hx) as (y & Hy & Hp). exists y. split; [by right|done].
Qed.

Lemma Forall2_elem_r {A B} (P : A → B → Prop) l k y :
  Forall2 P l k → y ∈ k → ∃ x, x ∈ l ∧ P x y.
Proof.
  induction 1 as [|x0 y0 l k Hxy _ IH]; intros Hy; [by apply elem_of_nil in Hy|].
  apply elem_of_cons in Hy as [->|Hy]; [exists x0; split; [left|done]|].
  destruct (IH Hy) as (x & Hx & Hp). exists x. split; [by right|done].
Qed.

Lemma dict_get_of_elem {V} k (v : V) d : NoDup (dict_keys d) → (k, v) ∈ d → dict_get k d = Some v.
Proof.
  unfold dict_keys. induction d as [|[k0 v0] d IH]; intros Hnd Hin; [by apply elem_of_nil in Hin|].
  rewrite fmap_cons in Hnd. apply NoDup_cons in Hnd as [Hk0 Hnd]. simpl.
  apply elem_of_cons in Hin as [[= -> ->]|Hin]; [by rewrite bool_decide_true|].
  rewrite bool_decide_false; [by apply IH|].
  intros ->. apply Hk0. by apply (list_elem_of_fmap_2 fst) in Hin.
Qed.

Section Subscribers.

Variables (arows : list album_row) (grows : list Alerts.group_row)
  (mrows : list Alerts.member_row).

Local Abbreviation subs := (Alerts.Subscribers (Some grows) (Some mrows)).
Local Abbreviation subscribed := (Alerts.subscribed arows grows mrows).

Lemma elem_of_select_group_names album gname l :
  Alerts.select_group_names (Some arows) subs album = Some l →
  gname ∈ l ↔ ∃ a g, a ∈ arows ∧ g ∈ grows ∧ name a = album
                    ∧ group_id a = Alerts.g_id g ∧ Alerts.g_name g = gname.
Proof.
  unfold Alerts.select_group_names. simpl. intros [= <-]. rewrite elem_of_flat_map. split.
  - intros (a & Ha & Hg). case_bool_decide as Hname; [|by apply elem_of_nil in Hg].
    apply elem_of_flat_map in Hg as (g & Hg & Hin).
    case_bool_decide as Hid; [|by apply elem_of_nil in Hin].
    apply list_elem_of_singleton in Hin. by exists a, g.
  - intros (a & g & Ha & Hg & Hname & Hid & Hgn). exists a. split; [done|].
    rewrite bool_decide_true by done. apply elem_of_flat_map. exists g. split; [done|].
    rewrite bool_decide_true by done. by apply list_elem_of_singleton.
Qed.

Lemma elem_of_select_member_info album gname info l :
  Alerts.select_member_info (Some arows) subs album gname = Some l →
  info ∈ l ↔ ∃ a g m, a ∈ arows ∧ g ∈ grows ∧ m ∈ mrows ∧ name a = album
                      ∧ group_id a = Alerts.g_id g ∧ Alerts.g_name g = gname
                      ∧ Alerts.g_id g = Alerts.m_group m
                      ∧ info = (Alerts.m_name m, Alerts.m_email m).
Proof.
  unfold Alerts.select_member_info. simpl. intros [= <-]. rewrite elem_of_flat_map. split.
  - intros (a & Ha & Hg). case_bool_decide as Hname; [|by apply elem_of_nil in Hg].
    apply elem_of_flat_map in Hg as (g & Hg & Hm).
    case_bool_decide as Hid; [|by apply elem_of_nil in Hm]. destruct Hid as [Hid Hgn].
    apply elem_of_flat_map in Hm as (m & Hm & Hin).
    case_bool_decide as Hmg; [|by apply elem_of_nil in Hin].
    apply list_elem_of_singleton in Hin. by exists a, g, m.
  - intros (a & g & m & Ha & Hg & Hm & Hname & Hid & Hgn & Hmg & ->).
    exists a. split; [done|]. rewrite bool_decide_true by done.
    apply elem_of_flat_map. exists g. split; [done|]. rewrite bool_decide_true by done.
    apply elem_of_flat_map. exists m. split; [done|]. rewrite bool_decide_true by done.
    by apply list_elem_of_singleton.
Qed.

Lemma get_album_groups_Some album l :
  Alerts.get_album_groups (Some arows) subs album = Some l →
  Alerts.select_group_names (Some arows) subs album = Some l.
Proof.
  unfold Alerts.get_album_groups.
  by destruct (Alerts.select_group_names _ _ _) as [[|g gs]|]; intros [= <-].
Qed.

Lemma get_member_info_Some album gname l :
  Alerts.get_member_info (Some arows) subs album gname = Some l →
  Alerts.select_member_info (Some arows) subs album gname = Some l.
Proof.
  unfold Alerts.get_member_info.
  by destruct (Alerts.select_member_info _ _ _ _) as [[|m ms]|]; intros [= <-].
Qed.

Lemma album_members_spec album l :
  Alerts.album_members (Some arows) subs album = Some l →
  NoDup l ∧ ∀ member_name email, (member_name, email) ∈ l ↔ subscribed album member_name email.
Proof.
  unfold Alerts.album_members.
  destruct (Alerts.get_album_groups _ _ _) as [group_list|] eqn:Hgroups; [|done]. simpl.
  destruct (mapM _ group_list) as [infos|] eqn:Hinfos; [|done]. simpl. intros [= <-].
  split; [apply NoDup_remove_dups|]. intros member_name email.
  rewrite elem_of_remove_dups, elem_of_concat.
  apply get_album_groups_Some in Hgroups. apply mapM_Some in Hinfos. split.
  - intros (info & Hinfo & Hin).
    destruct (Forall2_elem_r _ _ _ _ Hinfos Hinfo) as (gname & Hgname & Hget).
    apply get_member_info_Some in Hget.
    destruct (proj1 (elem_of_select_member_info _ _ _ _ Hget) Hin)
      as (a & g & m & Ha & Hg & Hm & Hname & Hid & Hgn & Hmg & Heq).
    injection Heq as -> ->. by exists a, g, m.
  - intros (a & g & m & Ha & Hg & Hm & Hname & Hid & Hmg & Hn & He).
    assert (Hgname : Alerts.g_name g ∈ group_list).
    { apply (elem_of_select_group_names _ _ _ Hgroups). by exists a, g. }
    destruct (Forall2_elem_l _ _ _ _ Hinfos Hgname) as (info & Hinfo & Hget).
    exists info. split; [done|]. apply get_member_info_Some in Hget.
    apply (elem_of_select_member_info _ _ _ _ Hget). exists a, g, m. subst. by repeat split.
Qed.

(** X16. When [sendalerts] gets through its first loop, it builds a message
    for every member linked to an album of the counts through a group of that
    album, once per album however many groups link them, with the count of
    that album, and for nobody else. *)
Theorem alerts_reach_each_subscriber_once (counts : list (string * Z))
    (msgs : list Alerts.message) :
  NoDup (dict_keys counts) →
  Alerts.sendalerts (Some arows) subs counts = Some msgs →
  NoDup msgs
  ∧ ∀ msg, msg ∈ msgs
      ↔ dict_get (Alerts.about_album msg) counts = Some (Alerts.photo_count msg)
        ∧ subscribed (Alerts.about_album msg) (Alerts.to_name msg) (Alerts.to_email msg).
Proof.
  intros Hnd. unfold Alerts.sendalerts.
  destruct (mapM _ counts) as [members|] eqn:Hmembers; [|done]. simpl. intros [= <-].
  apply mapM_Some in Hmembers.
  assert (Hmem : ∀ album l, (album, l) ∈ members →
            ∃ c, (album, c) ∈ counts ∧ Alerts.album_members (Some arows) subs album = Some l).
  { intros album l Hin. destruct (Forall2_elem_r _ _ _ _ Hmembers Hin) as ([a c] & Hc & Hf).
    simpl in Hf. destruct (Alerts.album_members _ _ a) as [l'|] eqn:Hl; simplify_eq/=.
    by exists c. }
  split.
  - assert (Hkeys : members.*1 = dict_keys counts).
    { unfold dict_keys. clear Hmem Hnd. induction Hmembers as [|[a c] [a' l] ? ? Hf _ IH]; [done|].
      rewrite !fmap_cons, IH. simpl in *.
      destruct (Alerts.album_members _ _ a); by simplify_eq/=. }
    rewrite <- Hkeys in Hnd. clear Hkeys Hmembers.
    induction members as [|[album l] members IH]; [apply NoDup_nil_2|].
    rewrite fmap_cons in Hnd. apply NoDup_cons in Hnd as [Hhd Hnd]. simpl.
    apply NoDup_app. split; [|split].
    + destruct (Hmem album l) as (c & _ & Hl); [left|].
      apply album_members_spec in Hl as [Hl _].
      apply NoDup_fmap_2_strong; [|done].
      intros [n1 e1] [n2 e2] _ _ Heq. by injection Heq as -> ->.
    + intros msg ([n e] & -> & _)%list_elem_of_fmap ([a' l'] & Hin & Hmsg)%elem_of_flat_map.
      apply list_elem_of_fmap in Hmsg as ([n' e'] & Heq & _). injection Heq as _ _ -> _.
      apply Hhd. by apply (list_elem_of_fmap_2 fst) in Hin.
    + apply IH; [done|]. intros a' l' Hin. apply Hmem. by right.
  - intros msg. rewrite elem_of_flat_map. split.
    + intros ([album l] & Hin & Hmsg).
      apply list_elem_of_fmap in Hmsg as ([n e] & -> & Hne). simpl.
      destruct (Hmem album l Hin) as (c & Hc & Hl).
      apply album_members_spec in Hl as [_ Hl]. split; [|by apply Hl].
      by rewrite (dict_get_of_elem album c counts).
    + intros [Hget Hsub]. destruct msg as [n e album c]. simpl in *.
      apply dict_get_Some_elem in Hget.
      destruct (Forall2_elem_l _ _ _ _ Hmembers Hget) as ([a' l] & Hin & Hf).
      simpl in Hf. destruct (Alerts.album_members _ _ album) as [l'|] eqn:Hl; [|done].
      simpl in Hf. injection Hf as <- <-.
      exists (album, l'). split; [done|].
      apply list_elem_of_fmap. exists (n, e). simpl.
      rewrite (dict_get_of_elem album c counts) by done. split; [done|].
      by apply (album_members_spec _ _ Hl).
Qed.

End Subscribers.

Lemma alerts_reach_each_subscriber_once_sample :
  let arows := [AlbumRow 1 "A" 1; AlbumRow 2 "B" 2; AlbumRow 3 "A" 2] in
  let grows := [Alerts.GroupRow 1 "family"; Alerts.GroupRow 2 "friends"] in
  let mrows := [Alerts.MemberRow 1 "Ann" "ann@example.org" 1;
                Alerts.MemberRow 2 "Bob" "bob@example.org" 2;
                Alerts.MemberRow 3 "Ann" "ann@example.org" 2] in
  let counts := [("A", 2); ("B", 1)] in
  let msgs := [Alerts.Message "Bob" "bob@example.org" "A" 2;
               Alerts.Message "Ann" "ann@example.org" "A" 2;
               Alerts.Message "Bob" "bob@example.org" "B" 1;
               Alerts.Message "Ann" "ann@example.org" "B" 1] in
  NoDup (dict_keys counts)
  ∧ Alerts.sendalerts (Some arows) (Alerts.Subscribers (Some grows) (Some mrows)) counts
    = Some msgs
  ∧ NoDup msgs
  ∧ ∀ msg, msg ∈ msgs
      ↔ dict_get (Alerts.about_album msg) counts = Some (Alerts.photo_count msg)
        ∧ Alerts.subscribed arows grows mrows
            (Alerts.about_album msg) (Alerts.to_name msg) (Alerts.to_email msg).
Proof.
  cbv zeta.
  assert (Hnd : NoDup (dict_keys [("A", 2); ("B", 1)])).
  { apply (bool_decide_unpack _). vm_compute. reflexivity. }
  split; [exact Hnd|]. split; [vm_compute; reflexivity|].
  apply alerts_reach_each_subscriber_once; [exact Hnd|vm_compute; reflexivity].
Defined.
